(** * ai-excel-generator: the response parser and request lifecycle of
      [src/pages/Home.tsx]

    The component's [generateFormula] handler is embedded here:
    - JavaScript strings are sequences of UTF-16 code units;
    - the three regular expressions of the handler are written as syntax
      trees and run by a backtracking matcher that follows the ECMAScript
      matching order (greedy and lazy quantifiers, a capture group, a
      positive lookahead, [^] and [$]);
    - the React state is a record, the setters are state writes in a small
      state-and-exception monad, and the [async] function is cut at its one
      [await]. *)

From Stdlib Require Import List NArith Bool Arith Lia String Ascii.
Import ListNotations.


(* ===================================================================== *)
(** ** JavaScript strings *)
(* ===================================================================== *)

Module JS.

(** A code unit of a JavaScript string. *)
Definition char := N.
Definition jsstring := list char.

(** An ASCII literal as a JavaScript string. *)
Definition js (s : string) : jsstring :=
  map N_of_ascii (list_ascii_of_string s).

Definition nl : char := 10%N.      (* \n *)
Definition dquote : char := 34%N.  (* the straight double quote *)
Definition squote : char := 39%N.  (* the straight single quote *)

Local Open Scope N_scope.

(** ECMAScript LineTerminator: LF, CR, LS, PS. *)
Definition isLineTerminator (c : char) : bool :=
  (c =? 10) || (c =? 13) || (c =? 8232) || (c =? 8233).

(** ECMAScript WhiteSpace: TAB, VT, FF, ZWNBSP and the category Zs. *)
Definition isWhiteSpace (c : char) : bool :=
  (c =? 9) || (c =? 11) || (c =? 12) || (c =? 32) || (c =? 160)
  || (c =? 5760) || ((8192 <=? c) && (c <=? 8202))
  || (c =? 8239) || (c =? 8287) || (c =? 12288) || (c =? 65279).

(** What [\s] matches and what [String.prototype.trim] removes. *)
Definition isSpace (c : char) : bool := isWhiteSpace c || isLineTerminator c.

Local Close Scope N_scope.

Fixpoint trimStart (s : jsstring) : jsstring :=
  match s with
  | c :: s' => if isSpace c then trimStart s' else s
  | [] => []
  end.

Definition trimEnd (s : jsstring) : jsstring := rev (trimStart (rev s)).

(** [String.prototype.trim] *)
Definition trim (s : jsstring) : jsstring := trimEnd (trimStart s).

(** [s.startsWith(p)], returning what follows the prefix. *)
Fixpoint strip_prefix (p s : jsstring) : option jsstring :=
  match p, s with
  | [], _ => Some s
  | a :: p', b :: s' => if N.eqb a b then strip_prefix p' s' else None
  | _ :: _, [] => None
  end.

(** [hay.indexOf(needle)] *)
Fixpoint indexOf (needle hay : jsstring) : option nat :=
  match strip_prefix needle hay with
  | Some _ => Some 0
  | None =>
      match hay with
      | [] => None
      | _ :: hay' => option_map S (indexOf needle hay')
      end
  end.

End JS.
Import JS.

(* ===================================================================== *)
(** ** Regular expressions: the fragment the handler uses *)
(* ===================================================================== *)

Module RegExp.

Inductive cclass :=
| CSpace                      (* \s *)
| CNewline                    (* \n *)
| CDot (dotAll : bool)        (* .  ; with the /s flag it matches everything *)
| COneOf (cs : list char).    (* [...] *)

Definition in_class (cl : cclass) (c : char) : bool :=
  match cl with
  | CSpace => isSpace c
  | CNewline => N.eqb c nl
  | CDot dotAll => dotAll || negb (isLineTerminator c)
  | COneOf cs => existsb (N.eqb c) cs
  end.

Inductive regex :=
| Eps
| Lit (l : jsstring)                 (* literal characters *)
| Class (cl : cclass)                (* one character of a class *)
| Star (greedy : bool) (cl : cclass) (* cl*  and  cl*? *)
| Plus (cl : cclass)                 (* cl+ *)
| Seq (r1 r2 : regex)
| Group (r : regex)                  (* ( r ), capture group 1 *)
| Lookahead (r : regex)              (* (?= r ) *)
| Bol                                (* ^ without the m flag *)
| Eol.                               (* $ without the m flag *)

Declare Scope regex_scope.
Delimit Scope regex_scope with re.
Bind Scope regex_scope with regex.
Notation "r1 >> r2" := (Seq r1 r2) (at level 61, right associativity) : regex_scope.

(** The matcher state: the index in the input, the rest of the input from
    that index, and the text captured by group 1 so far. *)
Definition result := (nat * option jsstring)%type. (* end index, group 1 *)
Definition cont := nat -> jsstring -> option jsstring -> option result.

Section Quantifiers.
Variable p : char -> bool.

(** Greedy: the longest run first, then shorter ones. *)
Fixpoint star_greedy (pos : nat) (s : jsstring)
         (k : nat -> jsstring -> option result) : option result :=
  match s with
  | c :: s' =>
      if p c then
        match star_greedy (S pos) s' k with
        | Some r => Some r
        | None => k pos s
        end
      else k pos s
  | [] => k pos s
  end.

(** Lazy: the empty run first, then longer ones. *)
Fixpoint star_lazy (pos : nat) (s : jsstring)
         (k : nat -> jsstring -> option result) : option result :=
  match k pos s with
  | Some r => Some r
  | None =>
      match s with
      | c :: s' => if p c then star_lazy (S pos) s' k else None
      | [] => None
      end
  end.
End Quantifiers.

(** The continuation that ends a match: the end index and group 1. *)
Definition top : cont := fun p' _ cap => Some (p', cap).

(** The backtracking matcher, in continuation-passing style. *)
Fixpoint m (r : regex) (pos : nat) (s : jsstring) (cap : option jsstring)
         (k : cont) : option result :=
  match r with
  | Eps => k pos s cap
  | Lit l =>
      match strip_prefix l s with
      | Some s' => k (pos + List.length l) s' cap
      | None => None
      end
  | Class cl =>
      match s with
      | c :: s' => if in_class cl c then k (S pos) s' cap else None
      | [] => None
      end
  | Star true cl => star_greedy (in_class cl) pos s (fun p' s' => k p' s' cap)
  | Star false cl => star_lazy (in_class cl) pos s (fun p' s' => k p' s' cap)
  | Plus cl =>
      match s with
      | c :: s' =>
          if in_class cl c
          then star_greedy (in_class cl) (S pos) s' (fun p' s' => k p' s' cap)
          else None
      | [] => None
      end
  | Seq r1 r2 => m r1 pos s cap (fun p' s' cap' => m r2 p' s' cap' k)
  | Group r1 =>
      m r1 pos s cap (fun p' s' _ => k p' s' (Some (firstn (p' - pos) s)))
  | Lookahead r1 =>
      match m r1 pos s cap top with
      | Some (_, cap') => k pos s cap'
      | None => None
      end
  | Bol => if Nat.eqb pos 0 then k pos s cap else None
  | Eol => match s with [] => k pos s cap | _ :: _ => None end
  end.

(** The match object: where the match starts and ends, and group 1. *)
Record MatchObj := { mstart : nat; mend : nat; group1 : option jsstring }.

(** Try every start index from [pos] on, leftmost first. *)
Fixpoint exec_from (r : regex) (pos : nat) (s : jsstring) : option MatchObj :=
  match m r pos s None top with
  | Some (e, cap) => Some {| mstart := pos; mend := e; group1 := cap |}
  | None =>
      match s with
      | _ :: s' => exec_from r (S pos) s'
      | [] => None
      end
  end.

(** [str.match(re)] for a regex without the g flag. *)
Definition exec (r : regex) (s : jsstring) : option MatchObj := exec_from r 0 s.

(** [str.replace(re, '$1')] for a regex without the g flag: the first match
    is replaced by group 1 (the empty string when it did not take part). *)
Definition replace_by_group1 (r : regex) (s : jsstring) : jsstring :=
  match exec r s with
  | None => s
  | Some mo =>
      firstn (mstart mo) s
        ++ match group1 mo with Some g => g | None => [] end
        ++ skipn (mend mo) s
  end.

End RegExp.
Import RegExp.

(* ===================================================================== *)
(** ** The response parser (Home.tsx, lines 39-51) *)
(* ===================================================================== *)

Definition FORMULA_hdr : jsstring := js "FORMULA:".
Definition EXPLANATION_hdr : jsstring := js "EXPLANATION:".

(** Line 40, the formula pattern, flag s:
    FORMULA: \s* \n* ( .*? ) (?= \s* \n* EXPLANATION: ) *)
Definition formulaRe : regex :=
  (Lit FORMULA_hdr >> Star true CSpace >> Star true CNewline >>
   Group (Star false (CDot true)) >>
   Lookahead (Star true CSpace >> Star true CNewline >> Lit EXPLANATION_hdr))%re.

(** Line 41, the explanation pattern, flag s:
    EXPLANATION: \s* \n* ( .* ) *)
Definition explanationRe : regex :=
  (Lit EXPLANATION_hdr >> Star true CSpace >> Star true CNewline >>
   Group (Star true (CDot true)))%re.

(** Line 46, the quote pattern, no flag:
    ^ [dquote squote] ( .+ ) [dquote squote] $ *)
Definition quoteRe : regex :=
  (Bol >> Class (COneOf [dquote; squote]) >> Group (Plus (CDot false)) >>
   Class (COneOf [dquote; squote]) >> Eol)%re.

(** Line 46: rawFormula.replace(quote pattern, $1) *)
Definition cleanFormula (rawFormula : jsstring) : jsstring :=
  replace_by_group1 quoteRe rawFormula.

(* ===================================================================== *)
(** ** The component state and the handler (Home.tsx, lines 9-59) *)
(* ===================================================================== *)

Module Controller.

(** The six [useState] cells of the component. *)
Record State := mkState {
  description : jsstring;
  formula : jsstring;
  explanation : jsstring;
  loading : bool;
  error : option jsstring;   (* string | null *)
  copied : bool
}.

Definition initial : State := mkState [] [] [] false None false.

(** A thrown value: an [Error] with its message, or anything else. *)
Inductive Thrown := ErrorObj (message : jsstring) | NotAnError.

Inductive completion (A : Type) := Normal (a : A) | Throw (e : Thrown).
Arguments Normal {A} a.
Arguments Throw {A} e.

(** Synchronous code: state writes and exceptions. *)
Definition M (A : Type) := State -> State * completion A.

Definition ret {A} (a : A) : M A := fun st => (st, Normal a).
Definition throw {A} (e : Thrown) : M A := fun st => (st, Throw e).
Definition bind {A B} (c : M A) (f : A -> M B) : M B :=
  fun st =>
    match c st with
    | (st1, Normal a) => f a st1
    | (st1, Throw e) => (st1, Throw e)
    end.

Declare Scope js_scope.
Delimit Scope js_scope with js.
Notation "x <- c ;; k" := (bind c (fun x => k))
  (at level 61, c at next level, right associativity) : js_scope.
Notation "c ;; k" := (bind c (fun _ => k))
  (at level 61, right associativity) : js_scope.
Local Open Scope js_scope.

Definition setDescription (v : jsstring) : M unit := fun st =>
  (mkState v (formula st) (explanation st) (loading st) (error st) (copied st), Normal tt).
Definition setFormula (v : jsstring) : M unit := fun st =>
  (mkState (description st) v (explanation st) (loading st) (error st) (copied st), Normal tt).
Definition setExplanation (v : jsstring) : M unit := fun st =>
  (mkState (description st) (formula st) v (loading st) (error st) (copied st), Normal tt).
Definition setLoading (v : bool) : M unit := fun st =>
  (mkState (description st) (formula st) (explanation st) v (error st) (copied st), Normal tt).
Definition setError (v : option jsstring) : M unit := fun st =>
  (mkState (description st) (formula st) (explanation st) (loading st) v (copied st), Normal tt).
Definition setCopied (v : bool) : M unit := fun st =>
  (mkState (description st) (formula st) (explanation st) (loading st) (error st) v, Normal tt).

(** The outbound call: [genAI.getGenerativeModel({model}).generateContent(prompt)]. *)
Record Request := { model : jsstring; prompt : jsstring }.

(** How the awaited call and [result.response.text()] end. *)
Inductive Outcome := Fulfilled (text : jsstring) | Rejected (err : Thrown).

(** An [async] function body run up to its first [await]: it has settled,
    or it is suspended on a request with the rest of the body waiting. *)
Inductive Async :=
| Settled (st : State) (c : completion unit)
| Suspended (st : State) (req : Request) (k : Outcome -> M unit).

(** [try { body } catch (err) { handler } finally { fin }], synchronous part. *)
Definition try_catch_finally (body : M unit) (handler : Thrown -> M unit)
           (fin : M unit) : M unit :=
  fun st =>
    match body st with
    | (st1, Normal _) => fin st1
    | (st1, Throw e) =>
        match handler e st1 with
        | (st2, Normal _) => fin st2
        | (st2, Throw e') =>
            match fin st2 with
            | (st3, Normal _) => (st3, Throw e')
            | (st3, Throw e'') => (st3, Throw e'')
            end
        end
    end.

(** The same around a body that may suspend: the handlers stay around the
    rest of the body. *)
Definition async_try (body : State -> Async) (handler : Thrown -> M unit)
           (fin : M unit) (st : State) : Async :=
  match body st with
  | Settled st1 c =>
      let '(st2, c2) := try_catch_finally (fun _ => (st1, c)) handler fin st1 in
      Settled st2 c2
  | Suspended st1 req k =>
      Suspended st1 req (fun o => try_catch_finally (k o) handler fin)
  end.

Definition config_msg : jsstring :=
  js "API key not configured. Please add your Gemini API key to continue.".
Definition parse_msg : jsstring := js "Failed to parse AI response correctly".
Definition generic_msg : jsstring :=
  js "An error occurred while generating the Excel formula".
(** Reading [.trim] of an [undefined] capture raises a TypeError; the text
    of its message is the engine's. *)
Definition undefined_msg : jsstring :=
  js "Cannot read properties of undefined (reading 'trim')".

(** Lines 27-34: the template literal. *)
Definition prompt_of (description : jsstring) : jsstring :=
  js "Generate an Excel formula based on this requirement: " ++ description
  ++ js ". " ++ [nl]
  ++ js "      Format your response exactly like this, including the exact headers:"
  ++ [nl; nl]
  ++ js "      FORMULA:" ++ [nl]
  ++ js "      [The exact Excel formula, nothing else]" ++ [nl; nl]
  ++ js "      EXPLANATION:" ++ [nl]
  ++ js "      [A clear, step-by-step explanation of how the formula works, with each step on a new line starting with a number and a dot]".

(** [capture.trim()] on a capture that may be [undefined]. *)
Definition trim_of (capture : option jsstring) : M jsstring :=
  match capture with
  | Some s => ret (trim s)
  | None => throw (ErrorObj undefined_msg)
  end.

(** Lines 39-51. *)
Definition split_response (response : jsstring) : M unit :=
  let formulaMatch := exec formulaRe response in
  let explanationMatch := exec explanationRe response in
  match formulaMatch, explanationMatch with
  | Some fm, Some em =>
      rawFormula <- trim_of (group1 fm) ;;
      setFormula (cleanFormula rawFormula) ;;
      e <- trim_of (group1 em) ;;
      setExplanation e
  | _, _ => throw (ErrorObj parse_msg)
  end.

(** Lines 36-51: what runs when the awaited call has ended. *)
Definition after_await (o : Outcome) : M unit :=
  response <- match o with
              | Fulfilled text => ret text
              | Rejected err => throw err
              end ;;
  split_response response.

(** Line 53: [err instanceof Error ? err.message : '...']. *)
Definition message_of (err : Thrown) : jsstring :=
  match err with
  | ErrorObj message => message
  | NotAnError => generic_msg
  end.

(** Lines 52-55. *)
Definition on_catch (err : Thrown) : M unit :=
  setError (Some (message_of err)) ;;
  setFormula [] ;;
  setExplanation [].

(** Lines 56-58. *)
Definition on_finally : M unit := setLoading false.

Section Handler.
(** The client exported by [@/lib/gemini]: an object, or a falsy value
    when no API key is configured. *)
Context {Client : Type}.
Variable genAI : option Client.

(** Lines 22-37: the [try] block up to the [await]. *)
Definition try_block (st : State) : Async :=
  match genAI with
  | None => Settled st (Throw (ErrorObj config_msg))
  | Some _ =>
      Suspended st
        {| model := js "gemini-1.5-flash"; prompt := prompt_of (description st) |}
        after_await
  end.

(** Lines 16-59. *)
Definition generateFormula (st : State) : Async :=
  match trim (description st) with
  | [] => Settled st (Normal tt)                       (* line 17 *)
  | _ :: _ =>
      let '(st1, _) := (setLoading true ;; setError None) st in
      async_try try_block on_catch on_finally st1
  end.
End Handler.

(** The rest of a suspended call: lines 36-58 on the state of that moment. *)
Definition resume (o : Outcome) : M unit :=
  try_catch_finally (after_await o) on_catch on_finally.

(** The response parser read off lines 40-48 as a function. *)
Record ParsedFormula := { pf_formula : jsstring; pf_explanation : jsstring }.

Definition parse (response : jsstring) : option ParsedFormula :=
  match exec formulaRe response, exec explanationRe response with
  | Some fm, Some em =>
      match group1 fm, group1 em with
      | Some f, Some e =>
          Some {| pf_formula := cleanFormula (trim f); pf_explanation := trim e |}
      | _, _ => None
      end
  | _, _ => None
  end.

End Controller.
Import Controller.

(* ===================================================================== *)
(** ** The component over time *)
(* ===================================================================== *)

Module System.

Definition Pending := (nat * (Outcome -> M unit))%type.

(** The component state, the calls that have not settled yet (each with
    the rest of its handler), and the log of outbound requests. A call is
    numbered by the count of requests issued before it. *)
Record Sys := mkSys {
  ui : State;
  inflight : list Pending;
  issued : list Request
}.

Definition boot : Sys := mkSys initial [] [].

(** What the page can deliver to the component. *)
Inductive Event :=
| Edit (text : jsstring)            (* line 85: onChange *)
| Click                             (* line 90: onClick of the button *)
| Settle (id : nat) (o : Outcome)   (* the awaited call [id] ends *)
| Copy                              (* line 63: setCopied(true) *)
| CopyExpired.                      (* line 64: the timer, setCopied(false) *)

(** An event of the page, or [generateFormula] called directly, whatever
    the button shows. *)
Inductive Action := Ui (e : Event) | Invoke.

(** Line 91: [disabled={loading || !description.trim()}]. *)
Definition disabled (st : State) : bool :=
  loading st || match trim (description st) with [] => true | _ :: _ => false end.

Fixpoint take (id : nat) (l : list Pending)
  : option ((Outcome -> M unit) * list Pending) :=
  match l with
  | [] => None
  | (i, k) :: l' =>
      if Nat.eqb i id then Some (k, l')
      else match take id l' with
           | Some (k', rest) => Some (k', (i, k) :: rest)
           | None => None
           end
  end.

Section Steps.
Context {Client : Type}.
Variable genAI : option Client.

Definition invoke (s : Sys) : Sys :=
  match generateFormula genAI (ui s) with
  | Settled st _ => mkSys st (inflight s) (issued s)
  | Suspended st req k =>
      mkSys st (inflight s ++ [(List.length (issued s), k)]) (issued s ++ [req])
  end.

Definition on_event (e : Event) (s : Sys) : Sys :=
  match e with
  | Edit text => mkSys (fst (setDescription text (ui s))) (inflight s) (issued s)
  | Click => if disabled (ui s) then s else invoke s
  | Settle id o =>
      match take id (inflight s) with
      | Some (k, rest) => mkSys (fst (k o (ui s))) rest (issued s)
      | None => s
      end
  | Copy => mkSys (fst (setCopied true (ui s))) (inflight s) (issued s)
  | CopyExpired => mkSys (fst (setCopied false (ui s))) (inflight s) (issued s)
  end.

Definition step (a : Action) (s : Sys) : Sys :=
  match a with
  | Ui e => on_event e s
  | Invoke => invoke s
  end.

Definition run (tr : list Action) (s : Sys) : Sys :=
  fold_left (fun s a => step a s) tr s.

(** The page alone: events only. *)
Definition ui_run (tr : list Event) (s : Sys) : Sys := run (map Ui tr) s.

(** Call [id] is in flight and a later call has been issued. *)
Definition superseded (id : nat) (s : Sys) : Prop :=
  In id (map fst (inflight s)) /\ S id < List.length (issued s).

(** The stale-response discard property: the end of a superseded call
    leaves the component state as it is. *)
Definition stale_discard : Prop :=
  forall (tr : list Action) (id : nat) (o : Outcome),
    superseded id (run tr boot) ->
    ui (step (Ui (Settle id o)) (run tr boot)) = ui (run tr boot).
End Steps.

(** The error and the result exclude each other. *)
Definition exclusive (st : State) : Prop :=
  (error st <> None -> formula st = [] /\ explanation st = []) /\
  (formula st <> [] -> error st = None).

End System.
Import System.

(* ===================================================================== *)
(** ** Vocabulary of the statements, and sample data *)
(* ===================================================================== *)

(** What a successful match of [r] means, whatever the search order. *)
Fixpoint sem (r : regex) (pos : nat) (s : jsstring) (cap : option jsstring)
         (pos' : nat) (s' : jsstring) (cap' : option jsstring) : Prop :=
  match r with
  | Eps => pos' = pos /\ s' = s /\ cap' = cap
  | Lit l => s = l ++ s' /\ pos' = pos + List.length l /\ cap' = cap
  | Class cl =>
      exists c, s = c :: s' /\ in_class cl c = true /\ pos' = S pos /\ cap' = cap
  | Star _ cl =>
      exists a, s = a ++ s' /\ forallb (in_class cl) a = true /\
                pos' = pos + List.length a /\ cap' = cap
  | Plus cl =>
      exists a, a <> [] /\ s = a ++ s' /\ forallb (in_class cl) a = true /\
                pos' = pos + List.length a /\ cap' = cap
  | Seq r1 r2 =>
      exists p1 s1 c1, sem r1 pos s cap p1 s1 c1 /\ sem r2 p1 s1 c1 pos' s' cap'
  | Group r1 =>
      exists c1, sem r1 pos s cap pos' s' c1 /\
                 cap' = Some (firstn (pos' - pos) s)
  | Lookahead r1 =>
      exists p1 s1, sem r1 pos s cap p1 s1 cap' /\ pos' = pos /\ s' = s
  | Bol => pos = 0 /\ pos' = pos /\ s' = s /\ cap' = cap
  | Eol => s = [] /\ pos' = pos /\ s' = s /\ cap' = cap
  end.

(** The lookahead of the formula pattern. *)
Definition boundary : regex :=
  (Star true CSpace >> Star true CNewline >> Lit EXPLANATION_hdr)%re.

(** A string whose first character is not white space stops both [\s*]
    and [\n*]. *)
Definition starts_solid (s : jsstring) : Prop :=
  forall c t, s = c :: t -> isSpace c = false.

(** The text between the first [FORMULA:] header and the first
    [EXPLANATION:] header after it. *)
Definition formula_segment (raw : jsstring) : option jsstring :=
  match indexOf FORMULA_hdr raw with
  | None => None
  | Some i =>
      let after := skipn (i + List.length FORMULA_hdr) raw in
      match indexOf EXPLANATION_hdr after with
      | None => None
      | Some j => Some (firstn j after)
      end
  end.

(** The text after the first [EXPLANATION:] header. *)
Definition explanation_segment (raw : jsstring) : option jsstring :=
  match indexOf EXPLANATION_hdr raw with
  | None => None
  | Some i => Some (skipn (i + List.length EXPLANATION_hdr) raw)
  end.

Definition isQuote (c : char) : bool := N.eqb c dquote || N.eqb c squote.

(** What [.] matches without the s flag, over a whole string. *)
Definition no_terminator (s : jsstring) : bool :=
  forallb (fun c => negb (isLineTerminator c)) s.

(** A quote at each end, and between them at least one character and no
    line terminator. *)
Definition wrapped (s : jsstring) : Prop :=
  exists q1 mid q2,
    s = q1 :: mid ++ [q2] /\ isQuote q1 = true /\ isQuote q2 = true /\
    mid <> [] /\ no_terminator mid = true.

(** The same quote character at both ends. *)
Definition matching_pair (s : jsstring) : Prop :=
  exists q mid, isQuote q = true /\ s = q :: mid ++ [q].

(** Sample responses. *)
Definition response_sum : jsstring :=
  js "FORMULA:" ++ [nl; dquote] ++ js "=SUM(A1:A10)" ++ [dquote; nl; nl]
  ++ js "EXPLANATION:" ++ [nl] ++ js "1. adds values" ++ [nl].

Definition response_text : jsstring :=
  js "FORMULA:" ++ [nl] ++ js "=TEXT(A1," ++ [dquote] ++ js "yyyy" ++ [dquote]
  ++ js ")" ++ [nl; nl] ++ js "EXPLANATION:" ++ [nl] ++ js "formats date" ++ [nl].

(** A formula segment between a double and a single quote. *)
Definition response_mismatched : jsstring :=
  js "FORMULA:" ++ [nl; dquote] ++ js "=A1" ++ [squote; nl; nl]
  ++ js "EXPLANATION:" ++ [nl] ++ js "x".

(** What the [catch] and [finally] blocks leave after the parse error. *)
Definition parse_error_state (st : State) : State :=
  mkState (description st) [] [] false (Some parse_msg) (copied st).

Definition response_no_headers : jsstring := js "no headers here".

(** Both headers in order, and only white space between them. *)
Definition response_empty_formula : jsstring :=
  js "FORMULA:" ++ [nl; nl] ++ js "EXPLANATION:" ++ [nl] ++ js "x".

Definition response_bare_headers : jsstring := js "FORMULA:EXPLANATION:".

Definition loading_state : State := mkState (js "sum") [] [] true None false.

(** A formula that holds the text EXPLANATION: inside a quoted string. *)
Definition response_embedded : jsstring :=
  js "FORMULA:" ++ [nl] ++ js "=" ++ [dquote] ++ js "EXPLANATION: " ++ [dquote]
  ++ js " & A1" ++ [nl; nl] ++ js "EXPLANATION:" ++ [nl] ++ js "1. joins".

Definition blank (s : jsstring) : Prop := trim s = [].

(** The state when the call goes out: loading set, error cleared. *)
Definition loading_of (st : State) : State :=
  mkState (description st) (formula st) (explanation st) true None (copied st).

Definition request_of (st : State) : Request :=
  {| model := js "gemini-1.5-flash"; prompt := prompt_of (description st) |}.

(** The state the [catch] and [finally] blocks leave. *)
Definition error_state (msg : jsstring) (st : State) : State :=
  mkState (description st) [] [] false (Some msg) (copied st).

(** A state that still holds an earlier result and an earlier error. *)
Definition stale_state : State :=
  mkState (js "sum") (js "=A1") (js "old") false (Some (js "boom")) false.

(** Every call in flight waits with the same rest of the handler. *)
Definition all_resume (s : Sys) : Prop :=
  Forall (fun e : Pending => snd e = resume) (inflight s).

Definition two_calls : list Action := [Ui (Edit (js "sum")); Invoke; Invoke].

Definition response_other : jsstring :=
  js "FORMULA:" ++ [nl] ++ js "=MAX(B:B)" ++ [nl] ++ js "EXPLANATION:" ++ [nl]
  ++ js "2. newer".

(** Through the page at most one call is in flight, and it is in flight
    exactly while loading is set. *)
Definition page_inv (s : Sys) : Prop :=
  exclusive (ui s) /\
  ((loading (ui s) = false /\ inflight s = []) \/
   (loading (ui s) = true /\ error (ui s) = None /\
    exists id, inflight s = [(id, resume)])).

(* ===================================================================== *)
(** ** The clipboard button and what the page shows (lines 61-65, 89-156) *)
(* ===================================================================== *)

Module Clipboard.

(** How [navigator.clipboard.writeText] ends. *)
Inductive WriteOutcome := Written | WriteFailed (err : Thrown).

(** [setTimeout(callback, delay)]. *)
Record Timer := { delay_ms : nat; callback : M unit }.

(** Lines 63-64: what runs when the awaited write has ended. *)
Definition after_write (o : WriteOutcome) : M (option Timer) :=
  match o with
  | Written =>
      (setCopied true ;;
       ret (Some {| delay_ms := 2000; callback := setCopied false |}))%js
  | WriteFailed err => throw err
  end.

(** Lines 61-65: the text handed to the clipboard, and the rest of the
    function. *)
Record CopyCall := {
  written_text : jsstring;
  copy_rest : WriteOutcome -> M (option Timer)
}.

Definition copyToClipboard (st : State) : CopyCall :=
  {| written_text := formula st; copy_rest := after_write |}.

End Clipboard.
Import Clipboard.

Module View.

(** [s.split(sep)] for a separator of one character. *)
Fixpoint split_on (sep : char) (s : jsstring) : list jsstring :=
  match s with
  | [] => [[]]
  | c :: s' =>
      if N.eqb c sep then [] :: split_on sep s'
      else match split_on sep s' with
           | cur :: rest => (c :: cur) :: rest
           | [] => [[c]]
           end
  end.

(** Lines 116-156: the card with the formula, the copy button and one
    paragraph for each line of the explanation. *)
Record ResultCard := {
  shown_formula : jsstring;
  copy_done : bool;               (* line 127: the label of the copy button *)
  paragraphs : list jsstring      (* line 149 *)
}.

(** What the component renders from its state. *)
Record Page := {
  button_disabled : bool;         (* line 91 *)
  button_busy : bool;             (* line 94: the label of the button *)
  error_banner : option jsstring; (* lines 107-111 *)
  result_card : option ResultCard (* lines 116-156 *)
}.

(** [error && ...] and [formula && ...] render nothing for [null] and for
    the empty string. *)
Definition render (st : State) : Page :=
  {| button_disabled := disabled st;
     button_busy := loading st;
     error_banner :=
       match error st with
       | Some (c :: msg) => Some (c :: msg)
       | Some [] | None => None
       end;
     result_card :=
       match formula st with
       | [] => None
       | _ :: _ =>
           Some {| shown_formula := formula st;
                   copy_done := copied st;
                   paragraphs := split_on nl (explanation st) |}
       end |}.

End View.
Import View.

(** [parts.join(sep)], the inverse of [split_on]. *)
Fixpoint join (sep : char) (parts : list jsstring) : jsstring :=
  match parts with
  | [] => []
  | [x] => x
  | x :: rest => x ++ sep :: join sep rest
  end.

(** Every request of the log names the model of line 26 and carries the
    prompt of a description that is not blank. *)
Definition well_formed_request (r : Request) : Prop :=
  model r = js "gemini-1.5-flash" /\
  exists d, ~ blank d /\ prompt r = prompt_of d.

(** An [EXPLANATION:] header in front of the [FORMULA:] header. *)
Definition response_explanation_first : jsstring :=
  js "EXPLANATION: see FORMULA: =A1 EXPLANATION: adds".

(** A quoted formula with blanks inside the quotes. *)
Definition response_padded : jsstring :=
  js "FORMULA: " ++ [dquote] ++ js " =A1 " ++ [dquote] ++ js " EXPLANATION: x".

(* ===================================================================== *)
(** ** Facts about strings *)
(* ===================================================================== *)

Section StringFacts.

Lemma strip_prefix_app (p s : jsstring) : strip_prefix p (p ++ s) = Some s.
Proof.
  induction p as [|a p IH]; simpl; [reflexivity|].
  now rewrite N.eqb_refl.
Qed.

Lemma strip_prefix_Some (p s s' : jsstring) :
  strip_prefix p s = Some s' -> s = p ++ s'.
Proof.
  revert s; induction p as [|a p IH]; intros s H; simpl in *.
  - now inversion H.
  - destruct s as [|b s]; [discriminate|].
    destruct (N.eqb_spec a b) as [->|]; [|discriminate].
    now rewrite (IH _ H).
Qed.

Lemma indexOf_Some (n h : jsstring) (i : nat) :
  indexOf n h = Some i ->
  (exists rest, skipn i h = n ++ rest) /\ i <= List.length h /\
  (forall j, j < i -> strip_prefix n (skipn j h) = None).
Proof.
  revert i; induction h as [|c h IH]; intros i; simpl.
  - destruct (strip_prefix n []) as [l|] eqn:E; [|discriminate].
    intros [= <-]. repeat split; [|lia|lia].
    exists l. now apply strip_prefix_Some.
  - destruct (strip_prefix n (c :: h)) as [l|] eqn:E.
    + intros [= <-]. repeat split; [|lia|lia].
      exists l. now apply strip_prefix_Some.
    + destruct (indexOf n h) as [i'|] eqn:E'; [|discriminate].
      intros [= <-]. destruct (IH _ eq_refl) as (Hr & Hl & Hm).
      repeat split; [exact Hr|simpl; lia|].
      intros [|j] Hj; simpl; [exact E|apply Hm; lia].
Qed.

Lemma indexOf_None (n h : jsstring) :
  indexOf n h = None -> forall j, strip_prefix n (skipn j h) = None.
Proof.
  induction h as [|c h IH]; simpl.
  - destruct (strip_prefix n []) eqn:E; [discriminate|].
    intros _ [|j]; exact E.
  - destruct (strip_prefix n (c :: h)) eqn:E; [discriminate|].
    destruct (indexOf n h) eqn:E'; [discriminate|].
    intros _ [|j]; simpl; [exact E|now apply IH].
Qed.

Lemma indexOf_found (n h : jsstring) (j : nat) (rest : jsstring) :
  strip_prefix n (skipn j h) = Some rest ->
  exists i, indexOf n h = Some i /\ i <= j.
Proof.
  intros H. destruct (indexOf n h) as [i|] eqn:E.
  - exists i; split; [reflexivity|].
    destruct (le_lt_dec i j) as [|Hlt]; [assumption|].
    destruct (indexOf_Some _ _ _ E) as (_ & _ & Hm).
    rewrite (Hm _ Hlt) in H; discriminate.
  - rewrite (indexOf_None _ _ E) in H; discriminate.
Qed.

Lemma indexOf_app_first (n seg rest : jsstring) :
  indexOf n (seg ++ n ++ rest) = Some (List.length seg) ->
  forall a b, seg = a ++ b -> b <> [] ->
  strip_prefix n (b ++ n ++ rest) = None.
Proof.
  intros H a b -> Hb.
  destruct (indexOf_Some _ _ _ H) as (_ & _ & Hm).
  specialize (Hm (List.length a)).
  rewrite <- app_assoc, skipn_app, skipn_all, Nat.sub_diag in Hm.
  simpl in Hm. apply Hm. rewrite length_app.
  destruct b; [congruence|simpl; lia].
Qed.

(** *** trim *)

Lemma trimStart_split (s : jsstring) :
  exists ws, s = ws ++ trimStart s /\ forallb isSpace ws = true.
Proof.
  induction s as [|c s (ws & E & Hws)]; simpl.
  - now exists [].
  - destruct (isSpace c) eqn:Ec.
    + exists (c :: ws); simpl. rewrite Ec, Hws. split; [now f_equal|reflexivity].
    + now exists [].
Qed.

Lemma trimStart_head (s : jsstring) (c : char) (t : jsstring) :
  trimStart s = c :: t -> isSpace c = false.
Proof.
  induction s as [|x s IH]; simpl; [discriminate|].
  destruct (isSpace x) eqn:Ex; [assumption|].
  now intros [= <- _].
Qed.

Lemma trimStart_nonspace (c : char) (t : jsstring) :
  isSpace c = false -> trimStart (c :: t) = c :: t.
Proof. intros H; simpl; now rewrite H. Qed.

Lemma trimStart_spaces (ws s : jsstring) :
  forallb isSpace ws = true -> trimStart (ws ++ s) = trimStart s.
Proof.
  induction ws as [|c ws IH]; simpl; [reflexivity|].
  intros H; apply andb_true_iff in H as [-> H]. now apply IH.
Qed.

Lemma trimStart_nil_iff (s : jsstring) :
  trimStart s = [] <-> forallb isSpace s = true.
Proof.
  induction s as [|c s IH]; simpl; [tauto|].
  destruct (isSpace c); simpl; [exact IH|]. split; discriminate.
Qed.

Lemma trimStart_app (s u : jsstring) :
  trimStart (s ++ u) =
  match trimStart s with [] => trimStart u | _ :: _ => trimStart s ++ u end.
Proof.
  induction s as [|c s IH]; simpl; [reflexivity|].
  destruct (isSpace c); [exact IH|reflexivity].
Qed.

Lemma trimStart_idem (s : jsstring) : trimStart (trimStart s) = trimStart s.
Proof.
  destruct (trimStart s) as [|c t] eqn:E; [reflexivity|].
  apply trimStart_nonspace. eapply trimStart_head; eassumption.
Qed.

Lemma trimEnd_split (s : jsstring) :
  exists ws, s = trimEnd s ++ ws /\ forallb isSpace ws = true.
Proof.
  destruct (trimStart_split (rev s)) as (ws & E & Hws).
  exists (rev ws). split.
  - unfold trimEnd. rewrite <- rev_app_distr, <- E. now rewrite rev_involutive.
  - rewrite forallb_forall in *. intros x Hx. apply Hws. now apply in_rev.
Qed.

Lemma trimEnd_last (s : jsstring) :
  trimEnd s = [] \/ exists s0 z, trimEnd s = s0 ++ [z] /\ isSpace z = false.
Proof.
  unfold trimEnd. destruct (trimStart (rev s)) as [|c t] eqn:E; [now left|].
  right. exists (rev t), c. split; [reflexivity|].
  eapply trimStart_head; eassumption.
Qed.

Lemma trimEnd_nil_iff (s : jsstring) :
  trimEnd s = [] <-> forallb isSpace s = true.
Proof.
  unfold trimEnd. split.
  - intros H. assert (H' : trimStart (rev s) = []).
    { rewrite <- (rev_involutive (trimStart (rev s))), H. reflexivity. }
    apply trimStart_nil_iff in H'. rewrite forallb_forall in *.
    intros x Hx. apply H'. now apply in_rev in Hx.
  - intros H. assert (H' : forallb isSpace (rev s) = true).
    { rewrite forallb_forall in *. intros x Hx. apply H. now apply in_rev. }
    apply trimStart_nil_iff in H'. now rewrite H'.
Qed.

Lemma trimEnd_head (c : char) (t : jsstring) :
  isSpace c = false -> exists t', trimEnd (c :: t) = c :: t'.
Proof.
  intros Hc. destruct (trimEnd_split (c :: t)) as (ws & E & Hws).
  destruct (trimEnd (c :: t)) as [|x t'] eqn:Et.
  - simpl in E. subst ws. simpl in Hws. rewrite Hc in Hws. discriminate.
  - simpl in E. injection E as <- _. now exists t'.
Qed.

Lemma trim_nil_iff (s : jsstring) : trim s = [] <-> forallb isSpace s = true.
Proof.
  unfold trim. rewrite trimEnd_nil_iff.
  destruct (trimStart_split s) as (ws & E & Hws).
  split; intros H.
  - rewrite E, forallb_app, Hws, H. reflexivity.
  - apply trimStart_nil_iff in H. now rewrite H.
Qed.

(** The shape of a string around its trimmed core. *)
Lemma trim_split (s : jsstring) :
  exists ws1 ws2,
    s = ws1 ++ trim s ++ ws2 /\ trimStart s = trim s ++ ws2 /\
    forallb isSpace ws1 = true /\ forallb isSpace ws2 = true /\
    (trim s = [] -> ws2 = []).
Proof.
  destruct (trimStart_split s) as (ws1 & E1 & H1).
  destruct (trimEnd_split (trimStart s)) as (ws2 & E2 & H2).
  exists ws1, ws2. unfold trim. repeat split; try assumption.
  - now rewrite <- E2.
  - intros Hnil. apply trimEnd_nil_iff, trimStart_nil_iff in Hnil.
    rewrite trimStart_idem in Hnil. rewrite Hnil in E2.
    unfold trimEnd in E2. simpl in E2. now subst ws2.
Qed.

Lemma trim_trimStart (s : jsstring) : trim (trimStart s) = trim s.
Proof. unfold trim. now rewrite trimStart_idem. Qed.

End StringFacts.

(* ===================================================================== *)
(** ** Facts about the matcher *)
(* ===================================================================== *)

Section QuantifierFacts.
Variable p : char -> bool.
Variable k : nat -> jsstring -> option result.

(** Whatever a quantifier returns, the continuation returned it after a
    run of characters of the class. *)
Lemma star_greedy_sound (s : jsstring) : forall pos r,
  star_greedy p pos s k = Some r ->
  exists a b, s = a ++ b /\ forallb p a = true /\
              k (pos + List.length a) b = Some r.
Proof.
  induction s as [|c s IH]; intros pos r; simpl.
  - intros H. exists [], []. now rewrite Nat.add_0_r.
  - destruct (p c) eqn:Ec.
    + destruct (star_greedy p (S pos) s k) as [r'|] eqn:E.
      * intros [= <-]. destruct (IH _ _ E) as (a & b & -> & Ha & Hk).
        exists (c :: a), b. simpl. rewrite Ec, Ha.
        now rewrite Nat.add_succ_r.
      * intros H. exists [], (c :: s). now rewrite Nat.add_0_r.
    + intros H. exists [], (c :: s). now rewrite Nat.add_0_r.
Qed.

Lemma star_lazy_sound (s : jsstring) : forall pos r,
  star_lazy p pos s k = Some r ->
  exists a b, s = a ++ b /\ forallb p a = true /\
              k (pos + List.length a) b = Some r.
Proof.
  induction s as [|c s IH]; intros pos r; simpl.
  - destruct (k pos []) as [r'|] eqn:E; [|discriminate].
    intros [= <-]. exists [], []. now rewrite Nat.add_0_r.
  - destruct (k pos (c :: s)) as [r'|] eqn:E.
    + intros [= <-]. exists [], (c :: s). now rewrite Nat.add_0_r.
    + destruct (p c) eqn:Ec; [|discriminate].
      intros H. destruct (IH _ _ H) as (a & b & -> & Ha & Hk).
      exists (c :: a), b. simpl. rewrite Ec, Ha.
      now rewrite Nat.add_succ_r.
Qed.

(** The greedy quantifier settles on the run [a] when the continuation
    accepts there and refuses after every longer run. *)
Lemma star_greedy_pick (a : jsstring) : forall pos b r,
  forallb p a = true ->
  k (pos + List.length a) b = Some r ->
  (forall a' b', b = a' ++ b' -> a' <> [] -> forallb p a' = true ->
                 k (pos + List.length a + List.length a') b' = None) ->
  star_greedy p pos (a ++ b) k = Some r.
Proof.
  induction a as [|c a IH]; intros pos b r Ha Hk Hlong; simpl in *.
  - rewrite Nat.add_0_r in *. destruct b as [|c b]; simpl; [exact Hk|].
    destruct (p c) eqn:Ec; [|exact Hk].
    destruct (star_greedy p (S pos) b k) as [r'|] eqn:E; [|exact Hk].
    destruct (star_greedy_sound _ _ _ E) as (a1 & b1 & -> & Ha1 & Hk1).
    assert (Hn : k (pos + List.length (c :: a1)) b1 = None).
    { apply Hlong; [reflexivity|discriminate|simpl; now rewrite Ec]. }
    simpl in Hn. rewrite Nat.add_succ_r in Hn. simpl in Hk1. congruence.
  - apply andb_true_iff in Ha as [-> Ha].
    rewrite (IH (S pos) b r); trivial.
    + rewrite <- Hk. f_equal. lia.
    + intros a' b' E Hne Hp. rewrite <- (Hlong a' b' E Hne Hp). f_equal. lia.
Qed.

(** The lazy quantifier settles on the first run after which the
    continuation accepts. *)
Lemma star_lazy_pick (a : jsstring) : forall pos b r,
  forallb p a = true ->
  k (pos + List.length a) b = Some r ->
  (forall a1 a2, a = a1 ++ a2 -> a2 <> [] ->
                 k (pos + List.length a1) (a2 ++ b) = None) ->
  star_lazy p pos (a ++ b) k = Some r.
Proof.
  induction a as [|c a IH]; intros pos b r Ha Hk Hshort; simpl in *.
  - rewrite Nat.add_0_r in Hk. destruct b; simpl; now rewrite Hk.
  - apply andb_true_iff in Ha as [Hc Ha].
    assert (H0 : k pos (c :: a ++ b) = None).
    { specialize (Hshort [] (c :: a) eq_refl). simpl in Hshort.
      rewrite Nat.add_0_r in Hshort. apply Hshort. discriminate. }
    rewrite H0, Hc. apply IH; trivial.
    + rewrite <- Hk. f_equal. lia.
    + intros a1 a2 -> Hne.
      rewrite <- (Hshort (c :: a1) a2 eq_refl Hne). simpl.
      now rewrite Nat.add_succ_r.
Qed.
End QuantifierFacts.

Lemma m_sound (r : regex) : forall pos s cap (k : cont) res,
  m r pos s cap k = Some res ->
  exists pos' s' cap', sem r pos s cap pos' s' cap' /\ k pos' s' cap' = Some res.
Proof.
  induction r as [|l|cl|g cl|cl|r1 IH1 r2 IH2|r1 IH1|r1 IH1| |];
    intros pos s cap k res; simpl.
  - intros H. now exists pos, s, cap.
  - destruct (strip_prefix l s) as [s'|] eqn:E; [|discriminate].
    intros H. exists (pos + List.length l), s', cap.
    repeat split; trivial. now apply strip_prefix_Some.
  - destruct s as [|c s']; [discriminate|].
    destruct (in_class cl c) eqn:Ec; [|discriminate].
    intros H. exists (S pos), s', cap. split; [|exact H]. now exists c.
  - destruct g; intros H;
      [apply star_greedy_sound in H|apply star_lazy_sound in H];
      destruct H as (a & b & -> & Ha & Hk);
      exists (pos + List.length a), b, cap; (split; [now exists a|exact Hk]).
  - destruct s as [|c s']; [discriminate|].
    destruct (in_class cl c) eqn:Ec; [|discriminate].
    intros H. apply star_greedy_sound in H as (a & b & -> & Ha & Hk).
    exists (S pos + List.length a), b, cap. split; [|exact Hk].
    exists (c :: a). simpl. rewrite Ec, Ha.
    repeat split; [discriminate|now rewrite Nat.add_succ_r].
  - intros H. apply IH1 in H as (p1 & s1 & c1 & H1 & H).
    apply IH2 in H as (p2 & s2 & c2 & H2 & H).
    exists p2, s2, c2. split; [|exact H]. now exists p1, s1, c1.
  - intros H. apply IH1 in H as (p1 & s1 & c1 & H1 & H).
    exists p1, s1, (Some (firstn (p1 - pos) s)). split; [|exact H].
    now exists c1.
  - destruct (m r1 pos s cap top) as [[e cap']|] eqn:E; [|discriminate].
    intros H. apply IH1 in E as (p1 & s1 & c1 & H1 & Htop).
    unfold top in Htop. injection Htop as _ <-.
    exists pos, s, c1. split; [|exact H]. now exists p1, s1.
  - destruct (Nat.eqb_spec pos 0) as [E|]; [|discriminate].
    intros H. now exists pos, s, cap.
  - destruct s; [|discriminate]. intros H. now exists pos, [], cap.
Qed.

(** A match consumes a prefix of the input and counts its length. *)
Lemma sem_consumes (r : regex) : forall pos s cap pos' s' cap',
  sem r pos s cap pos' s' cap' ->
  exists a, s = a ++ s' /\ pos' = pos + List.length a.
Proof.
  induction r as [|l|cl|g cl|cl|r1 IH1 r2 IH2|r1 IH1|r1 IH1| |];
    intros pos s cap pos' s' cap'; simpl.
  - intros (-> & -> & _). exists []. now rewrite Nat.add_0_r.
  - intros (-> & -> & _). now exists l.
  - intros (c & -> & _ & -> & _). exists [c]. simpl. split; [reflexivity|lia].
  - intros (a & -> & _ & -> & _). now exists a.
  - intros (a & _ & -> & _ & -> & _). now exists a.
  - intros (p1 & s1 & c1 & H1 & H2).
    apply IH1 in H1 as (a1 & -> & ->). apply IH2 in H2 as (a2 & -> & ->).
    exists (a1 ++ a2). rewrite app_assoc, length_app. split; [reflexivity|lia].
  - intros (c1 & H1 & _). now apply IH1 in H1.
  - intros (p1 & s1 & _ & -> & ->). exists []. now rewrite Nat.add_0_r.
  - intros (_ & -> & -> & _). exists []. now rewrite Nat.add_0_r.
  - intros (_ & -> & -> & _). exists []. now rewrite Nat.add_0_r.
Qed.

(** *** The search for the leftmost match *)

Lemma exec_from_inv (r : regex) (s : jsstring) : forall pos mo,
  exec_from r pos s = Some mo ->
  exists j, j <= List.length s /\ mstart mo = pos + j /\
            m r (pos + j) (skipn j s) None top = Some (mend mo, group1 mo).
Proof.
  induction s as [|c s IH]; intros pos mo; simpl.
  - destruct (m r pos [] None top) as [[e cap]|] eqn:E; [|discriminate].
    intros [= <-]. exists 0. simpl. rewrite Nat.add_0_r. auto.
  - destruct (m r pos (c :: s) None top) as [[e cap]|] eqn:E.
    + intros [= <-]. exists 0. simpl. rewrite Nat.add_0_r. split; [lia|auto].
    + intros H. apply IH in H as (j & Hj & Hs & Hm).
      exists (S j). simpl. rewrite Nat.add_succ_r. split; [lia|auto].
Qed.

Lemma exec_from_skip (r : regex) (u : jsstring) : forall pos v,
  (forall j, j < List.length u ->
             m r (pos + j) (skipn j (u ++ v)) None top = None) ->
  exec_from r pos (u ++ v) = exec_from r (pos + List.length u) v.
Proof.
  induction u as [|c u IH]; intros pos v H; simpl.
  - now rewrite Nat.add_0_r.
  - specialize (H 0) as H0. simpl in H0.
    rewrite Nat.add_0_r in H0. rewrite H0 by lia.
    rewrite IH; [now rewrite Nat.add_succ_r|].
    intros j Hj. specialize (H (S j)). simpl in H.
    rewrite Nat.add_succ_r in H. apply H. lia.
Qed.

Lemma exec_from_here (r : regex) (s : jsstring) (pos e : nat) cap :
  m r pos s None top = Some (e, cap) ->
  exec_from r pos s = Some {| mstart := pos; mend := e; group1 := cap |}.
Proof. intros H. destruct s; simpl; now rewrite H. Qed.

Lemma exec_from_none (r : regex) (s : jsstring) (pos : nat) :
  (forall j, j <= List.length s ->
             m r (pos + j) (skipn j s) None top = None) ->
  exec_from r pos s = None.
Proof.
  intros H. destruct (exec_from r pos s) as [mo|] eqn:E; [|reflexivity].
  apply exec_from_inv in E as (j & Hj & _ & Hm).
  rewrite (H j Hj) in Hm. discriminate.
Qed.

(** The matcher, one node at a time. *)
Lemma m_Seq r1 r2 pos s cap k :
  m (Seq r1 r2) pos s cap k = m r1 pos s cap (fun p' s' c' => m r2 p' s' c' k).
Proof. reflexivity. Qed.

Lemma m_Lit_app l pos s cap k :
  m (Lit l) pos (l ++ s) cap k = k (pos + List.length l) s cap.
Proof. simpl. now rewrite strip_prefix_app. Qed.

Lemma m_Lit_fail l pos s cap k :
  strip_prefix l s = None -> m (Lit l) pos s cap k = None.
Proof. intros H. simpl. now rewrite H. Qed.

Lemma m_Group_lazy cl pos s cap k :
  m (Group (Star false cl)) pos s cap k
  = star_lazy (in_class cl) pos s
      (fun p' s' => k p' s' (Some (firstn (p' - pos) s))).
Proof. reflexivity. Qed.

Lemma m_Group_greedy cl pos s cap k :
  m (Group (Star true cl)) pos s cap k
  = star_greedy (in_class cl) pos s
      (fun p' s' => k p' s' (Some (firstn (p' - pos) s))).
Proof. reflexivity. Qed.

Lemma star_greedy_stop p pos s k :
  (forall c t, s = c :: t -> p c = false) -> star_greedy p pos s k = k pos s.
Proof.
  destruct s as [|c t]; intros H; simpl; [reflexivity|].
  now rewrite (H c t eq_refl).
Qed.

Lemma forallb_dotAll (s : jsstring) : forallb (in_class (CDot true)) s = true.
Proof. apply forallb_forall. reflexivity. Qed.

Lemma newline_space (c : char) : in_class CNewline c = true -> isSpace c = true.
Proof. simpl. intros H. apply N.eqb_eq in H. now subst c. Qed.

Lemma newlines_spaces (a : jsstring) :
  forallb (in_class CNewline) a = true -> forallb isSpace a = true.
Proof.
  rewrite !forallb_forall. intros H x Hx. apply newline_space. now apply H.
Qed.

(* ===================================================================== *)
(** ** The three patterns of the handler *)
(* ===================================================================== *)

Section Patterns.

Lemma EXPLANATION_head (rest : jsstring) :
  exists c t, EXPLANATION_hdr ++ rest = c :: t /\ isSpace c = false.
Proof. exists 69%N, (js "XPLANATION:" ++ rest). split; reflexivity. Qed.

Lemma trimStart_EXPLANATION (rest : jsstring) :
  trimStart (EXPLANATION_hdr ++ rest) = EXPLANATION_hdr ++ rest.
Proof.
  destruct (EXPLANATION_head rest) as (c & t & -> & Hc).
  now apply trimStart_nonspace.
Qed.

Lemma solid_no_newline s :
  starts_solid s -> forall c t, s = c :: t -> in_class CNewline c = false.
Proof.
  intros H c t E. destruct (in_class CNewline c) eqn:Ec; [|reflexivity].
  apply newline_space in Ec. now rewrite (H c t E) in Ec.
Qed.

Lemma solid_no_longer (p : char -> bool) s :
  (forall c, p c = true -> isSpace c = true) -> starts_solid s ->
  forall a' b', s = a' ++ b' -> a' <> [] -> forallb p a' = true -> False.
Proof.
  intros Hp H [|c a'] b' E Hne Ha; [congruence|].
  simpl in *. apply andb_true_iff in Ha as [Hc _].
  apply Hp in Hc. now rewrite (H c (a' ++ b') E) in Hc.
Qed.

Lemma trimStart_solid s : starts_solid (trimStart s).
Proof. intros c t E. eapply trimStart_head; eassumption. Qed.

(** [\s*] followed by [\n*] ends exactly at the first solid character. *)
Lemma spaces_then (r : regex) pos (ws b : jsstring) cap (k : cont) res :
  forallb isSpace ws = true -> starts_solid b ->
  m r (pos + List.length ws) b cap k = Some res ->
  m (Star true CSpace >> Star true CNewline >> r)%re pos (ws ++ b) cap k
  = Some res.
Proof.
  intros Hws Hb Hr. rewrite m_Seq. cbn [m].
  apply star_greedy_pick; [exact Hws| |].
  - cbv beta. rewrite star_greedy_stop; [exact Hr|].
    now apply solid_no_newline.
  - intros a' b' E Hne Ha. exfalso.
    apply (@solid_no_longer (in_class CSpace) b (fun c H => H) Hb a' b' E Hne Ha).
Qed.

Lemma boundary_ok pos s cap rest :
  strip_prefix EXPLANATION_hdr (trimStart s) = Some rest ->
  exists e, m boundary pos s cap top = Some (e, cap).
Proof.
  intros H. apply strip_prefix_Some in H.
  destruct (trimStart_split s) as (ws & E & Hws).
  eexists. rewrite E at 1. unfold boundary. apply spaces_then; trivial.
  - apply trimStart_solid.
  - rewrite H, m_Lit_app. reflexivity.
Qed.

Lemma boundary_fail pos s cap (k : cont) :
  strip_prefix EXPLANATION_hdr (trimStart s) = None ->
  m boundary pos s cap k = None.
Proof.
  intros H. destruct (m boundary pos s cap k) as [res|] eqn:E; [|reflexivity].
  apply m_sound in E as (p' & s' & c' & Hsem & _).
  unfold boundary in Hsem. cbn [sem] in Hsem.
  destruct Hsem as (p1 & s1 & c1 & (a1 & -> & Ha1 & _) & p2 & s2 & c2
                    & (a2 & -> & Ha2 & _) & -> & _).
  rewrite (trimStart_spaces a1) in H by exact Ha1.
  rewrite (trimStart_spaces a2) in H by now apply newlines_spaces.
  rewrite trimStart_EXPLANATION, strip_prefix_app in H. discriminate.
Qed.

Lemma look_boundary_ok pos s cap rest (k : cont) :
  strip_prefix EXPLANATION_hdr (trimStart s) = Some rest ->
  m (Lookahead boundary) pos s cap k = k pos s cap.
Proof.
  intros H. destruct (boundary_ok pos s cap rest H) as (e & He).
  cbn [m]. now rewrite He.
Qed.

Lemma look_boundary_fail pos s cap (k : cont) :
  strip_prefix EXPLANATION_hdr (trimStart s) = None ->
  m (Lookahead boundary) pos s cap k = None.
Proof. intros H. cbn [m]. now rewrite boundary_fail. Qed.

(** The last character of a split string belongs to its second part. *)
Lemma last_of_suffix (a1 a2 s0 : jsstring) (z : char) :
  a1 ++ a2 = s0 ++ [z] -> a2 <> [] -> exists a2', a2 = a2' ++ [z].
Proof.
  intros E Hne. destruct (exists_last Hne) as (a2' & y & ->).
  rewrite app_assoc in E. apply app_inj_tail in E as [_ ->]. now exists a2'.
Qed.

(** *** The formula pattern at a [FORMULA:] header *)

Lemma formula_at (pos : nat) (seg rest : jsstring) :
  indexOf EXPLANATION_hdr (seg ++ EXPLANATION_hdr ++ rest)
  = Some (List.length seg) ->
  exists e, m formulaRe pos (FORMULA_hdr ++ seg ++ EXPLANATION_hdr ++ rest)
              None top = Some (e, Some (trim seg)).
Proof.
  intros Hfirst.
  destruct (trim_split seg) as (ws1 & ws2 & Eseg & Ets & Hws1 & Hws2 & Hnil).
  set (tail := ws2 ++ EXPLANATION_hdr ++ rest).
  set (P := pos + List.length FORMULA_hdr + List.length ws1).
  assert (Hsolid : starts_solid (trim seg ++ tail)).
  { unfold tail. rewrite app_assoc, <- Ets. intros c t E.
    destruct (trimStart seg) as [|x xs] eqn:Ex.
    - cbn [app] in E. destruct (EXPLANATION_head rest) as (c0 & t0 & E0 & H0).
      rewrite E0 in E. now injection E as <- _.
    - cbn [app] in E. injection E as <- _. eapply trimStart_head; eassumption. }
  exists (P + List.length (trim seg)).
  unfold formulaRe.
  change (Star true CSpace >> Star true CNewline >> Lit EXPLANATION_hdr)%re
    with boundary.
  rewrite m_Seq, m_Lit_app.
  replace (seg ++ EXPLANATION_hdr ++ rest) with (ws1 ++ trim seg ++ tail)
    by (unfold tail; rewrite Eseg at 2; now rewrite <- !app_assoc).
  apply spaces_then; [exact Hws1|exact Hsolid|]. fold P.
  rewrite m_Seq, m_Group_lazy.
  apply star_lazy_pick; [apply forallb_dotAll| |]; cbv beta.
  - unfold tail.
    rewrite (look_boundary_ok _ _ _ rest).
    + unfold top. do 2 f_equal. f_equal.
      replace (P + List.length (trim seg) - P) with (List.length (trim seg)) by lia.
      now rewrite firstn_app, firstn_all, Nat.sub_diag, app_nil_r.
    + rewrite trimStart_spaces by exact Hws2.
      now rewrite trimStart_EXPLANATION, strip_prefix_app.
  - intros a1 a2 Ecore Hne. apply look_boundary_fail.
    destruct (trimEnd_last (trimStart seg)) as [Hn|(s0 & z & Hz & Hzs)];
      fold (trim seg) in *.
    { rewrite Hn in Ecore. symmetry in Ecore.
      apply app_eq_nil in Ecore as [_ ->]. congruence. }
    rewrite Ecore in Hz.
    destruct (@last_of_suffix _ _ _ _ Hz Hne) as (a2' & Ea2).
    rewrite trimStart_app.
    destruct (trimStart_split a2) as (w & Ew & Hw).
    destruct (trimStart a2) as [|x xs] eqn:Ex.
    { rewrite app_nil_r in Ew. subst w. rewrite Ea2, forallb_app in Hw.
      simpl in Hw. rewrite Hzs, andb_false_r in Hw. discriminate. }
    unfold tail. rewrite app_assoc.
    apply indexOf_app_first
      with (seg := seg) (a := ws1 ++ a1 ++ w) (b := (x :: xs) ++ ws2).
    + exact Hfirst.
    + rewrite Eseg at 1. rewrite Ecore, Ew. now rewrite <- !app_assoc.
    + discriminate.
Qed.

Lemma formula_needs_header pos s cap (k : cont) :
  strip_prefix FORMULA_hdr s = None -> m formulaRe pos s cap k = None.
Proof. intros H. unfold formulaRe. rewrite m_Seq. now apply m_Lit_fail. Qed.

(** Where the formula pattern matches, both headers stand in order. *)
Lemma formula_match_shape pos s cap (k : cont) res :
  m formulaRe pos s cap k = Some res ->
  exists body rest, s = FORMULA_hdr ++ body ++ EXPLANATION_hdr ++ rest.
Proof.
  intros H. apply m_sound in H as (p' & s' & c' & Hsem & _).
  unfold formulaRe in Hsem. cbn [sem] in Hsem.
  destruct Hsem as (p1 & s1 & c1 & (-> & _) & p2 & s2 & c2
                    & (a1 & -> & _) & p3 & s3 & c3 & (a2 & -> & _)
                    & p4 & s4 & c4 & (c5 & (a3 & -> & _) & _)
                    & p6 & s6 & (p7 & s7 & c7 & (a4 & E4 & _) & p8 & s8 & c8
                                 & (a5 & -> & _) & -> & _) & _ & ->).
  subst s4. exists (a1 ++ a2 ++ a3 ++ a4 ++ a5), s6.
  now rewrite <- !app_assoc.
Qed.

Lemma skipn_app_exact (A : Type) (u v : list A) :
  skipn (List.length u) (u ++ v) = v.
Proof. now rewrite skipn_app, skipn_all, Nat.sub_diag. Qed.

Lemma split_at_index (n h : jsstring) (i : nat) :
  indexOf n h = Some i ->
  exists rest, h = firstn i h ++ n ++ rest /\ List.length (firstn i h) = i /\
               skipn (i + List.length n) h = rest.
Proof.
  intros H. destruct (indexOf_Some _ _ _ H) as ((rest & Hr) & Hl & _).
  exists rest. assert (E : h = firstn i h ++ n ++ rest).
  { now rewrite <- Hr, firstn_skipn. }
  repeat split; [exact E|now apply firstn_length_le|].
  rewrite Nat.add_comm, <- skipn_skipn, Hr. apply skipn_app_exact.
Qed.

Theorem formula_exec (raw : jsstring) :
  match formula_segment raw with
  | Some seg =>
      exists mo, exec formulaRe raw = Some mo /\ group1 mo = Some (trim seg)
  | None => exec formulaRe raw = None
  end.
Proof.
  unfold formula_segment, exec.
  destruct (indexOf FORMULA_hdr raw) as [i|] eqn:Ei.
  2:{ apply exec_from_none. intros j _. apply formula_needs_header.
      now apply indexOf_None. }
  destruct (split_at_index _ _ _ Ei) as (after & Eraw & Hlen & ->).
  destruct (indexOf EXPLANATION_hdr after) as [j|] eqn:Ej.
  - destruct (split_at_index _ _ _ Ej) as (rest & Eafter & Hlen' & _).
    set (seg := firstn j after) in *.
    assert (Hfirst : indexOf EXPLANATION_hdr (seg ++ EXPLANATION_hdr ++ rest)
                     = Some (List.length seg)).
    { now rewrite <- Eafter, Hlen'. }
    destruct (formula_at i seg rest Hfirst) as (e & He).
    exists {| mstart := i; mend := e; group1 := Some (trim seg) |}.
    split; [|reflexivity].
    rewrite Eraw, exec_from_skip.
    + rewrite Hlen. simpl Nat.add. rewrite Eafter at 1.
      now apply exec_from_here.
    + intros j' Hj'. rewrite <- Eraw. apply formula_needs_header.
      destruct (indexOf_Some _ _ _ Ei) as (_ & _ & Hm). apply Hm. lia.
  - apply exec_from_none. intros j' _.
    destruct (m formulaRe (0 + j') (skipn j' raw) None top) as [res|] eqn:E;
      [exfalso|reflexivity].
    apply formula_match_shape in E as (body & rest & Es).
    assert (Hj' : i <= j').
    { destruct (le_lt_dec i j') as [|Hlt]; [assumption|exfalso].
      destruct (indexOf_Some _ _ _ Ei) as (_ & _ & Hm).
      specialize (Hm _ Hlt). now rewrite Es, strip_prefix_app in Hm. }
    pose proof (indexOf_None _ _ Ej (j' - i + List.length body)) as Hn.
    replace after with (skipn (i + List.length FORMULA_hdr) raw) in Hn.
    2:{ rewrite Eraw at 1. rewrite <- Hlen at 1.
        rewrite Nat.add_comm, <- skipn_skipn, skipn_app_exact.
        apply skipn_app_exact. }
    rewrite skipn_skipn in Hn.
    replace (j' - i + List.length body + (i + List.length FORMULA_hdr))
      with (List.length body + (List.length FORMULA_hdr + j')) in Hn by lia.
    rewrite <- !skipn_skipn, Es, skipn_app_exact, skipn_app_exact in Hn.
    now rewrite strip_prefix_app in Hn.
Qed.

(** *** The explanation pattern *)

Lemma star_greedy_all p pos s (k : nat -> jsstring -> option result) r :
  forallb p s = true -> k (pos + List.length s) [] = Some r ->
  star_greedy p pos s k = Some r.
Proof.
  intros Hs Hk. rewrite <- (app_nil_r s). apply star_greedy_pick; trivial.
  intros [|c a'] b' E Hne _; [congruence|discriminate E].
Qed.

Lemma explanation_at (pos : nat) (after : jsstring) :
  exists e, m explanationRe pos (EXPLANATION_hdr ++ after) None top
            = Some (e, Some (trimStart after)).
Proof.
  destruct (trimStart_split after) as (ws & E & Hws).
  set (P := pos + List.length EXPLANATION_hdr + List.length ws).
  exists (P + List.length (trimStart after)).
  unfold explanationRe. rewrite m_Seq, m_Lit_app. rewrite E at 1.
  apply spaces_then; [exact Hws|apply trimStart_solid|]. fold P.
  rewrite m_Group_greedy. apply star_greedy_all; [apply forallb_dotAll|].
  unfold top. do 3 f_equal.
  replace (P + List.length (trimStart after) - P)
    with (List.length (trimStart after)) by lia.
  apply firstn_all.
Qed.

Lemma explanation_needs_header pos s cap (k : cont) :
  strip_prefix EXPLANATION_hdr s = None -> m explanationRe pos s cap k = None.
Proof. intros H. unfold explanationRe. rewrite m_Seq. now apply m_Lit_fail. Qed.

Theorem explanation_exec (raw : jsstring) :
  match explanation_segment raw with
  | Some after =>
      exists mo, exec explanationRe raw = Some mo /\
                 group1 mo = Some (trimStart after)
  | None => exec explanationRe raw = None
  end.
Proof.
  unfold explanation_segment, exec.
  destruct (indexOf EXPLANATION_hdr raw) as [i|] eqn:Ei.
  2:{ apply exec_from_none. intros j _. apply explanation_needs_header.
      now apply indexOf_None. }
  destruct (split_at_index _ _ _ Ei) as (after & Eraw & Hlen & ->).
  destruct (explanation_at i after) as (e & He).
  exists {| mstart := i; mend := e; group1 := Some (trimStart after) |}.
  split; [|reflexivity].
  rewrite Eraw, exec_from_skip.
  - rewrite Hlen. simpl Nat.add. now apply exec_from_here.
  - intros j' Hj'. rewrite <- Eraw. apply explanation_needs_header.
    destruct (indexOf_Some _ _ _ Ei) as (_ & _ & Hm). apply Hm. lia.
Qed.

(** A formula segment is followed by an explanation segment. *)
Lemma formula_segment_explanation (raw seg : jsstring) :
  formula_segment raw = Some seg -> exists after, explanation_segment raw = Some after.
Proof.
  unfold formula_segment, explanation_segment.
  destruct (indexOf FORMULA_hdr raw) as [i|] eqn:Ei; [|discriminate].
  destruct (indexOf EXPLANATION_hdr (skipn _ raw)) as [j|] eqn:Ej; [|discriminate].
  intros _. destruct (indexOf_Some _ _ _ Ej) as ((rest & Hr) & _ & _).
  rewrite skipn_skipn in Hr.
  destruct (@indexOf_found EXPLANATION_hdr raw
              (j + (i + List.length FORMULA_hdr)) rest) as (i' & -> & _).
  - now rewrite Hr, strip_prefix_app.
  - eauto.
Qed.

(** *** The quote pattern *)

Lemma in_quote_class (c : char) :
  existsb (N.eqb c) [dquote; squote] = isQuote c.
Proof. unfold isQuote. simpl. now rewrite orb_false_r. Qed.

Lemma quote_at (q1 q2 : char) (mid : jsstring) :
  isQuote q1 = true -> isQuote q2 = true -> mid <> [] ->
  no_terminator mid = true ->
  m quoteRe 0 (q1 :: mid ++ [q2]) None top
  = Some (List.length (q1 :: mid ++ [q2]), Some mid).
Proof.
  intros H1 H2 Hne Hmid. destruct mid as [|c mid]; [congruence|].
  simpl in Hmid. apply andb_true_iff in Hmid as [Hc Hmid].
  unfold quoteRe. cbn [m Nat.eqb app in_class orb].
  rewrite in_quote_class, H1, Hc.
  apply star_greedy_pick; [exact Hmid| |].
  - rewrite in_quote_class, H2. unfold top. do 2 f_equal.
    + simpl. rewrite length_app. simpl. lia.
    + f_equal.
      replace (2 + List.length mid - 1) with (List.length (c :: mid))
        by (simpl; lia).
      change (c :: mid ++ [q2]) with ((c :: mid) ++ [q2]).
      now rewrite firstn_app, firstn_all, Nat.sub_diag, app_nil_r.
  - intros [|x a'] b' E Hne' _; [congruence|].
    injection E as _ E. symmetry in E. apply app_eq_nil in E as [_ ->].
    reflexivity.
Qed.

Lemma quote_match_shape pos s cap (k : cont) res :
  m quoteRe pos s cap k = Some res -> pos = 0 /\ wrapped s.
Proof.
  intros H. apply m_sound in H as (p' & s' & c' & Hsem & _).
  unfold quoteRe in Hsem. cbn [sem] in Hsem.
  destruct Hsem as (p1 & s1 & c1 & (-> & -> & -> & _) & p2 & s2 & c2
                    & (q1 & -> & Hq1 & _) & p3 & s3 & c3
                    & (c4 & (mid & Hne & -> & Hmid & _) & _)
                    & p5 & s5 & c5 & (q2 & -> & Hq2 & _) & -> & _).
  split; [reflexivity|]. exists q1, mid, q2.
  cbn [in_class] in Hq1, Hq2. rewrite in_quote_class in Hq1, Hq2.
  repeat split; assumption.
Qed.

Theorem cleanFormula_wrapped (q1 q2 : char) (mid : jsstring) :
  isQuote q1 = true -> isQuote q2 = true -> mid <> [] ->
  no_terminator mid = true ->
  cleanFormula (q1 :: mid ++ [q2]) = mid.
Proof.
  intros H1 H2 Hne Hmid. unfold cleanFormula, replace_by_group1, exec.
  rewrite (exec_from_here _ _ _ _ _ (quote_at _ _ _ H1 H2 Hne Hmid)).
  cbn [mstart mend group1]. now rewrite skipn_all, app_nil_r.
Qed.

Theorem cleanFormula_other (s : jsstring) :
  ~ wrapped s -> cleanFormula s = s.
Proof.
  intros H. unfold cleanFormula, replace_by_group1, exec.
  rewrite exec_from_none; [reflexivity|]. intros j _.
  destruct (m quoteRe (0 + j) (skipn j s) None top) as [res|] eqn:E;
    [exfalso|reflexivity].
  apply quote_match_shape in E as [Hj Hw].
  simpl in Hj. subst j. now apply H.
Qed.

End Patterns.

(* ===================================================================== *)
(** ** The parser as a function of the two segments *)
(* ===================================================================== *)

Lemma trimEnd_idem (s : jsstring) : trimEnd (trimEnd s) = trimEnd s.
Proof. unfold trimEnd. now rewrite rev_involutive, trimStart_idem. Qed.

Lemma trim_idem (s : jsstring) : trim (trim s) = trim s.
Proof.
  unfold trim. destruct (trimStart s) as [|c t] eqn:E; [reflexivity|].
  destruct (trimEnd_head c t (trimStart_head _ _ _ E)) as (t' & Et).
  rewrite Et, trimStart_nonspace by (eapply trimStart_head; eassumption).
  rewrite <- Et. apply trimEnd_idem.
Qed.

Lemma formula_exec_inv (raw : jsstring) (fm : MatchObj) :
  exec formulaRe raw = Some fm ->
  exists seg, formula_segment raw = Some seg /\ group1 fm = Some (trim seg).
Proof.
  intros E. pose proof (formula_exec raw) as H.
  destruct (formula_segment raw) as [seg|]; [|congruence].
  destruct H as (mo & Hmo & Hg). exists seg. split; [reflexivity|congruence].
Qed.

Lemma explanation_exec_inv (raw : jsstring) (em : MatchObj) :
  exec explanationRe raw = Some em ->
  exists after, explanation_segment raw = Some after /\
                group1 em = Some (trimStart after).
Proof.
  intros E. pose proof (explanation_exec raw) as H.
  destruct (explanation_segment raw) as [after|]; [|congruence].
  destruct H as (mo & Hmo & Hg). exists after. split; [reflexivity|congruence].
Qed.

Theorem parse_segments (raw : jsstring) :
  parse raw =
  match formula_segment raw, explanation_segment raw with
  | Some seg, Some after =>
      Some {| pf_formula := cleanFormula (trim seg);
              pf_explanation := trim after |}
  | _, _ => None
  end.
Proof.
  unfold parse.
  pose proof (formula_exec raw) as Hf. pose proof (explanation_exec raw) as He.
  destruct (formula_segment raw) as [seg|].
  - destruct Hf as (fm & -> & ->).
    destruct (explanation_segment raw) as [after|].
    + destruct He as (em & -> & ->). now rewrite trim_idem, trim_trimStart.
    + now rewrite He.
  - now rewrite Hf.
Qed.

(** Lines 40-51 publish exactly what [parse] returns. *)
Lemma split_response_parse (response : jsstring) (st : State) :
  split_response response st =
  match parse response with
  | Some pf =>
      (mkState (description st) (pf_formula pf) (pf_explanation pf)
               (loading st) (error st) (copied st), Normal tt)
  | None => (st, Throw (ErrorObj parse_msg))
  end.
Proof.
  unfold split_response, parse.
  destruct (exec formulaRe response) as [fm|] eqn:Ef; [|reflexivity].
  destruct (exec explanationRe response) as [em|] eqn:Ee; [|reflexivity].
  apply formula_exec_inv in Ef as (seg & _ & ->).
  apply explanation_exec_inv in Ee as (after & _ & ->).
  reflexivity.
Qed.

Lemma resume_fulfilled (text : jsstring) (st : State) :
  resume (Fulfilled text) st =
  match parse text with
  | Some pf =>
      (mkState (description st) (pf_formula pf) (pf_explanation pf) false
               (error st) (copied st), Normal tt)
  | None =>
      (mkState (description st) [] [] false (Some parse_msg) (copied st),
       Normal tt)
  end.
Proof.
  unfold resume, try_catch_finally, after_await, bind, ret.
  rewrite split_response_parse. now destruct (parse text).
Qed.

Lemma resume_rejected (err : Thrown) (st : State) :
  resume (Rejected err) st =
  (mkState (description st) [] [] false (Some (message_of err)) (copied st),
   Normal tt).
Proof. reflexivity. Qed.


(* ===================================================================== *)
(** ** Quote stripping *)
(* ===================================================================== *)

Lemma cleanFormula_cases (s : jsstring) :
  (wrapped s /\ cleanFormula s <> s) \/ (~ wrapped s /\ cleanFormula s = s).
Proof.
  destruct (exec quoteRe s) as [mo|] eqn:E.
  - left. apply exec_from_inv in E as (j & _ & _ & Hm).
    apply quote_match_shape in Hm as [Hj Hw]. simpl in Hj. subst j.
    simpl in Hw. split; [exact Hw|].
    destruct Hw as (q1 & mid & q2 & -> & H1 & H2 & Hne & Hmid).
    rewrite cleanFormula_wrapped by assumption.
    intros Heq. apply (f_equal (@List.length _)) in Heq.
    simpl in Heq. rewrite length_app in Heq. simpl in Heq. lia.
  - right. split; [|unfold cleanFormula, replace_by_group1; now rewrite E].
    intros (q1 & mid & q2 & -> & H1 & H2 & Hne & Hmid).
    unfold exec in E.
    now rewrite (exec_from_here _ _ _ _ _ (quote_at _ _ _ H1 H2 Hne Hmid)) in E.
Qed.

Lemma cleanFormula_nil_iff (s : jsstring) : cleanFormula s = [] <-> s = [].
Proof.
  split.
  - intros H. destruct (cleanFormula_cases s) as [[Hw _]|[_ E]]; [|congruence].
    destruct Hw as (q1 & mid & q2 & -> & H1 & H2 & Hne & Hmid).
    rewrite cleanFormula_wrapped in H by assumption. congruence.
  - intros ->. reflexivity.
Qed.

Lemma parse_Some_inv (raw : jsstring) (pf : ParsedFormula) :
  parse raw = Some pf ->
  exists seg after,
    formula_segment raw = Some seg /\ explanation_segment raw = Some after /\
    pf_formula pf = cleanFormula (trim seg) /\ pf_explanation pf = trim after.
Proof.
  rewrite parse_segments.
  destruct (formula_segment raw) as [seg|]; [|discriminate].
  destruct (explanation_segment raw) as [after|]; [|discriminate].
  intros [= <-]. now exists seg, after.
Qed.

(** C1, as amended: on a parsed response the outer characters of the
    trimmed formula segment are removed exactly when the segment starts
    with a straight double or single quote, ends with one (not necessarily
    the same), and has in between at least one character and no line
    terminator; then the formula is the text in between, otherwise it is the
    trimmed segment unchanged. *)
Theorem C1_quote_stripping (raw : jsstring) (pf : ParsedFormula) :
  parse raw = Some pf ->
  exists seg,
    formula_segment raw = Some seg /\
    (pf_formula pf <> trim seg <-> wrapped (trim seg)) /\
    (~ wrapped (trim seg) -> pf_formula pf = trim seg) /\
    (forall q1 mid q2,
        trim seg = q1 :: mid ++ [q2] ->
        isQuote q1 = true -> isQuote q2 = true -> mid <> [] ->
        no_terminator mid = true ->
        pf_formula pf = mid).
Proof.
  intros H. apply parse_Some_inv in H as (seg & after & Hs & _ & -> & _).
  exists seg. split; [exact Hs|].
  destruct (cleanFormula_cases (trim seg)) as [[Hw Hc]|[Hw Hc]].
  - repeat split; try tauto.
    intros q1 mid q2 -> H1 H2 Hne Hmid. now apply cleanFormula_wrapped.
  - repeat split; try tauto; try congruence.
    intros q1 mid q2 E H1 H2 Hne Hmid. exfalso. apply Hw.
    now exists q1, mid, q2.
Qed.

Lemma C1_quote_stripping_witness :
  parse response_sum
  = Some {| pf_formula := js "=SUM(A1:A10)"; pf_explanation := js "1. adds values" |}
  /\ exists seg, formula_segment response_sum = Some seg /\
                 trim seg = dquote :: js "=SUM(A1:A10)" ++ [dquote].
Proof.
  assert (Hp : parse response_sum
               = Some {| pf_formula := js "=SUM(A1:A10)";
                         pf_explanation := js "1. adds values" |})
    by (vm_compute; reflexivity).
  split; [exact Hp|].
  destruct (C1_quote_stripping response_sum _ Hp) as (seg & Hs & _).
  exists seg. split; [exact Hs|].
  vm_compute in Hs. injection Hs as <-. vm_compute. reflexivity.
Defined.

(** Quotes inside the formula stay. *)
Example parse_response_text :
  parse response_text
  = Some {| pf_formula := js "=TEXT(A1," ++ [dquote] ++ js "yyyy" ++ [dquote] ++ js ")";
            pf_explanation := js "formats date" |}.
Proof. vm_compute. reflexivity. Qed.

(** C1 as stated fails: a double quote in front and a single quote behind
    do not match, yet both are removed. *)
Lemma C1_counterexample :
  let seg := dquote :: js "=A1" ++ [squote] in
  option_map trim (formula_segment response_mismatched) = Some seg /\
  ~ matching_pair seg /\
  parse response_mismatched
  = Some {| pf_formula := js "=A1"; pf_explanation := js "x" |}.
Proof.
  cbv zeta. repeat split; try (vm_compute; reflexivity).
  intros (q & mid & _ & E). injection E as <- E.
  apply (f_equal (@rev _)) in E. rewrite rev_app_distr in E.
  vm_compute in E. discriminate E.
Qed.

(* ===================================================================== *)
(** ** Failure and success of the parser *)
(* ===================================================================== *)

(** C2, as amended: parsing fails exactly on the responses with no
    [FORMULA:] header or with no [EXPLANATION:] header after the first
    [FORMULA:] header; on those the handler ends with the parse message as
    the error, loading cleared and formula and explanation empty. An empty
    formula between the two headers is not a failure. *)
Theorem C2_malformed_response (raw : jsstring) :
  (parse raw = None <-> formula_segment raw = None) /\
  (formula_segment raw = None ->
   forall st, resume (Fulfilled raw) st = (parse_error_state st, Normal tt)).
Proof.
  assert (Hiff : parse raw = None <-> formula_segment raw = None).
  { rewrite parse_segments.
    destruct (formula_segment raw) as [seg|] eqn:Es; [|tauto].
    destruct (formula_segment_explanation raw seg Es) as (after & ->).
    split; discriminate. }
  split; [exact Hiff|].
  intros Hn st. apply Hiff in Hn. now rewrite resume_fulfilled, Hn.
Qed.

Lemma C2_malformed_response_witness :
  formula_segment response_no_headers = None /\
  parse response_no_headers = None /\
  resume (Fulfilled response_no_headers) loading_state
  = (mkState (js "sum") [] [] false
             (Some (js "Failed to parse AI response correctly")) false,
     Normal tt).
Proof.
  assert (Hn : formula_segment response_no_headers = None)
    by (vm_compute; reflexivity).
  destruct (C2_malformed_response response_no_headers) as [Hiff Herr].
  split; [exact Hn|].
  split; [now apply Hiff|exact (Herr Hn loading_state)].
Defined.

(** C2 as stated fails: with an empty formula segment parsing succeeds
    and no error is set. *)
Lemma C2_counterexample :
  option_map trim (formula_segment response_empty_formula) = Some [] /\
  parse response_empty_formula
  = Some {| pf_formula := []; pf_explanation := js "x" |} /\
  resume (Fulfilled response_empty_formula) loading_state
  = (mkState (js "sum") [] (js "x") false None false, Normal tt).
Proof. repeat split; vm_compute; reflexivity. Qed.

(** C3, as amended: on a parsed response the formula is empty exactly when
    only white space stands between the [FORMULA:] header and the next
    [EXPLANATION:] header, and the explanation is empty exactly when only
    white space follows the first [EXPLANATION:] header. Either can be
    empty. *)
Theorem C3_fields_of_parsed (raw : jsstring) (pf : ParsedFormula) :
  parse raw = Some pf ->
  exists seg after,
    formula_segment raw = Some seg /\ explanation_segment raw = Some after /\
    (pf_formula pf = [] <-> forallb isSpace seg = true) /\
    (pf_explanation pf = [] <-> forallb isSpace after = true).
Proof.
  intros H. apply parse_Some_inv in H as (seg & after & Hs & Ha & -> & ->).
  exists seg, after. repeat split; trivial.
  - intros H. now apply trim_nil_iff, cleanFormula_nil_iff.
  - intros H. now apply cleanFormula_nil_iff, trim_nil_iff.
  - apply trim_nil_iff.
  - apply trim_nil_iff.
Qed.

Lemma C3_fields_of_parsed_witness :
  exists seg after,
    formula_segment response_sum = Some seg /\
    explanation_segment response_sum = Some after /\
    (js "=SUM(A1:A10)" = [] <-> forallb isSpace seg = true) /\
    (js "1. adds values" = [] <-> forallb isSpace after = true).
Proof.
  apply (C3_fields_of_parsed response_sum
           {| pf_formula := js "=SUM(A1:A10)";
              pf_explanation := js "1. adds values" |}).
  vm_compute. reflexivity.
Defined.

(** C3 as stated fails: parsing succeeds with both fields empty. *)
Lemma C3_counterexample :
  parse response_bare_headers
  = Some {| pf_formula := []; pf_explanation := [] |}.
Proof. vm_compute. reflexivity. Qed.

(** C8: the formula ends at the first [EXPLANATION:] after the first
    [FORMULA:] header, whatever follows it, further [EXPLANATION:] headers
    included. *)
Theorem C8_truncates_at_first_header (pre body rest : jsstring) :
  indexOf FORMULA_hdr (pre ++ FORMULA_hdr ++ body ++ EXPLANATION_hdr ++ rest)
  = Some (List.length pre) ->
  indexOf EXPLANATION_hdr (body ++ EXPLANATION_hdr ++ rest)
  = Some (List.length body) ->
  exists pf,
    parse (pre ++ FORMULA_hdr ++ body ++ EXPLANATION_hdr ++ rest) = Some pf /\
    formula_segment (pre ++ FORMULA_hdr ++ body ++ EXPLANATION_hdr ++ rest)
    = Some body /\
    pf_formula pf = cleanFormula (trim body).
Proof.
  intros HF HE.
  set (raw := pre ++ FORMULA_hdr ++ body ++ EXPLANATION_hdr ++ rest) in *.
  assert (Hseg : formula_segment raw = Some body).
  { unfold formula_segment. rewrite HF.
    replace (skipn (List.length pre + List.length FORMULA_hdr) raw)
      with (body ++ EXPLANATION_hdr ++ rest).
    - rewrite HE. now rewrite firstn_app, firstn_all, Nat.sub_diag, app_nil_r.
    - unfold raw. rewrite Nat.add_comm, <- skipn_skipn.
      now rewrite !skipn_app_exact. }
  destruct (formula_segment_explanation raw body Hseg) as (after & Ha).
  exists {| pf_formula := cleanFormula (trim body);
            pf_explanation := trim after |}.
  repeat split; trivial. now rewrite parse_segments, Hseg, Ha.
Qed.

Lemma C8_truncates_at_first_header_witness :
  exists pf,
    parse response_embedded = Some pf /\
    formula_segment response_embedded = Some ([nl] ++ js "=" ++ [dquote]) /\
    pf_formula pf = js "=" ++ [dquote].
Proof.
  apply (C8_truncates_at_first_header []
           ([nl] ++ js "=" ++ [dquote])
           (js " " ++ [dquote] ++ js " & A1" ++ [nl; nl] ++ js "EXPLANATION:"
               ++ [nl] ++ js "1. joins"));
    vm_compute; reflexivity.
Defined.

(* ===================================================================== *)
(** ** The handler, one call at a time *)
(* ===================================================================== *)

Lemma generateFormula_configured {Client : Type} (c : Client) (st : State) :
  ~ blank (description st) ->
  generateFormula (Some c) st = Suspended (loading_of st) (request_of st) resume.
Proof.
  unfold blank, generateFormula. intros H.
  destruct (trim (description st)); [congruence|reflexivity].
Qed.

Lemma generateFormula_unconfigured {Client : Type} (st : State) :
  ~ blank (description st) ->
  generateFormula (@None Client) st
  = Settled (error_state config_msg st) (Normal tt).
Proof.
  unfold blank, generateFormula. intros H.
  destruct (trim (description st)); [congruence|reflexivity].
Qed.

Lemma generateFormula_blank {Client : Type} (genAI : option Client) (st : State) :
  blank (description st) -> generateFormula genAI st = Settled st (Normal tt).
Proof. unfold blank, generateFormula. now intros ->. Qed.




(** C5: on an input that is empty once trimmed the handler returns at
    once; the state, the calls in flight and the log of requests are what
    they were, through the button and through a direct call alike. *)
Theorem C5_blank_is_noop {Client : Type} (genAI : option Client) (s : Sys) :
  blank (description (ui s)) ->
  generateFormula genAI (ui s) = Settled (ui s) (Normal tt) /\
  step genAI Invoke s = s /\
  step genAI (Ui Click) s = s.
Proof.
  intros H. pose proof (generateFormula_blank genAI _ H) as Hg.
  assert (Hi : invoke genAI s = s).
  { unfold invoke. rewrite Hg. now destruct s. }
  repeat split; trivial. simpl. now destruct (disabled (ui s)).
Qed.

Lemma C5_blank_is_noop_witness :
  let s := mkSys (mkState (js "   ") (js "=A1") (js "old") false None false) [] [] in
  generateFormula (Some tt) (ui s) = Settled (ui s) (Normal tt) /\
  step (Some tt) Invoke s = s /\
  step (Some tt) (Ui Click) s = s.
Proof.
  cbv zeta. apply C5_blank_is_noop. vm_compute. reflexivity.
Defined.

Example C5_empty_input :
  generateFormula (Some tt) initial = Settled initial (Normal tt).
Proof. reflexivity. Qed.

(** C6: without a configured client a valid submission ends at once in
    the error state with the message that asks for the API key, and no
    request is issued. *)
Theorem C6_unconfigured {Client : Type} (s : Sys) :
  ~ blank (description (ui s)) ->
  generateFormula (@None Client) (ui s)
  = Settled (error_state config_msg (ui s)) (Normal tt) /\
  step (@None Client) Invoke s
  = mkSys (error_state config_msg (ui s)) (inflight s) (issued s).
Proof.
  intros H. pose proof (@generateFormula_unconfigured Client _ H) as Hg.
  split; [exact Hg|]. simpl. unfold invoke. now rewrite Hg.
Qed.

Lemma C6_unconfigured_witness :
  step (@None unit) Invoke (mkSys stale_state [] [])
  = mkSys (mkState (js "sum") [] [] false
                   (Some (js "API key not configured. Please add your Gemini API key to continue."))
                   false) [] [].
Proof.
  apply (@C6_unconfigured unit (mkSys stale_state [] [])).
  unfold blank. vm_compute. discriminate.
Defined.

(** C7: when the call of a configured client fails, the rest of the
    handler leaves the error set to the message of the thrown Error, as it
    is, or to the text "An error occurred while generating the Excel
    formula" when the thrown value is not an Error; loading is cleared and
    formula and explanation are empty, whatever they were. *)
Theorem C7_failed_call {Client : Type} (c : Client) (st : State) (err : Thrown) :
  ~ blank (description st) ->
  exists st1 req k,
    generateFormula (Some c) st = Suspended st1 req k /\
    forall st2,
      k (Rejected err) st2
      = (mkState (description st2) [] [] false
                 (Some match err with
                       | ErrorObj m => m
                       | NotAnError =>
                           js "An error occurred while generating the Excel formula"
                       end)
                 (copied st2),
         Normal tt).
Proof.
  intros H. exists (loading_of st), (request_of st), resume.
  split; [now apply generateFormula_configured|].
  intros st2. rewrite resume_rejected. now destruct err.
Qed.

Lemma C7_failed_call_witness :
  (exists st1 req k,
      generateFormula (Some tt) stale_state = Suspended st1 req k /\
      forall st2,
        k (Rejected (ErrorObj (js "quota exceeded"))) st2
        = (mkState (description st2) [] [] false
                   (Some (js "quota exceeded")) (copied st2), Normal tt)) /\
  (exists st1 req k,
      generateFormula (Some tt) stale_state = Suspended st1 req k /\
      forall st2,
        k (Rejected NotAnError) st2
        = (mkState (description st2) [] [] false
                   (Some (js "An error occurred while generating the Excel formula"))
                   (copied st2), Normal tt)).
Proof.
  assert (Hb : ~ blank (description stale_state))
    by (unfold blank; vm_compute; discriminate).
  split.
  - exact (C7_failed_call tt stale_state (ErrorObj (js "quota exceeded")) Hb).
  - exact (C7_failed_call tt stale_state NotAnError Hb).
Defined.

Example C7_failure_messages (m : jsstring) :
  message_of (ErrorObj m) = m /\
  message_of NotAnError = js "An error occurred while generating the Excel formula".
Proof. split; reflexivity. Qed.

(* ===================================================================== *)
(** ** Calls that overlap, and the invariant of the page *)
(* ===================================================================== *)

Section Overlap.
Context {Client : Type}.
Variable genAI : option Client.

Lemma invoke_cases (s : Sys) :
  invoke genAI s = s \/
  invoke genAI s = mkSys (error_state config_msg (ui s)) (inflight s) (issued s) \/
  (~ blank (description (ui s)) /\
   invoke genAI s
   = mkSys (loading_of (ui s))
           (inflight s ++ [(List.length (issued s), resume)])
           (issued s ++ [request_of (ui s)])).
Proof.
  unfold invoke. destruct (trim (description (ui s))) as [|c t] eqn:E.
  - left. rewrite generateFormula_blank by exact E. now destruct s.
  - assert (H : ~ blank (description (ui s))) by (unfold blank; congruence).
    destruct genAI as [c0|].
    + right; right. split; [exact H|].
      now rewrite generateFormula_configured.
    + right; left. now rewrite generateFormula_unconfigured.
Qed.

Lemma take_Forall (P : Pending -> Prop) (id : nat) (l : list Pending) k rest :
  Forall P l -> take id l = Some (k, rest) -> P (id, k) /\ Forall P rest.
Proof.
  revert k rest. induction l as [|[i k0] l IH]; intros k rest Hl; simpl;
    [discriminate|].
  inversion Hl as [|? ? Hh Ht]; subst.
  destruct (Nat.eqb_spec i id) as [->|].
  - intros [= <- <-]. now split.
  - destruct (take id l) as [[k' rest']|]; [|discriminate].
    intros [= <- <-]. destruct (IH _ _ Ht eq_refl) as [Hp Hr].
    split; [exact Hp|now constructor].
Qed.

Lemma take_In (id : nat) (l : list Pending) :
  In id (map fst l) -> exists k rest, take id l = Some (k, rest).
Proof.
  induction l as [|[i k0] l IH]; simpl; [tauto|].
  intros H. destruct (Nat.eqb_spec i id) as [->|Hne]; [eauto|].
  destruct H as [H|H]; [congruence|].
  destruct (IH H) as (k & rest & ->). eauto.
Qed.

Lemma step_all_resume (a : Action) (s : Sys) :
  all_resume s -> all_resume (step genAI a s).
Proof.
  unfold all_resume. intros H.
  assert (Hi : Forall (fun e : Pending => snd e = resume)
                      (inflight (invoke genAI s))).
  { destruct (invoke_cases s) as [->|[->|[_ ->]]]; simpl; trivial.
    apply Forall_app. split; [exact H|]. now repeat constructor. }
  destruct a as [[text| |id o| |]|]; simpl; trivial.
  - destruct (disabled (ui s)); trivial.
  - destruct (take id (inflight s)) as [[k rest]|] eqn:E; [|exact H].
    simpl. now destruct (take_Forall _ _ _ _ _ H E).
Qed.

Lemma run_all_resume (tr : list Action) : forall s,
  all_resume s -> all_resume (run genAI tr s).
Proof.
  induction tr as [|a tr IH]; intros s H; simpl; [exact H|].
  apply IH. now apply step_all_resume.
Qed.

(** C9, as amended: the handler keeps no sequence number. When a call
    in flight ends, superseded or not, the rest of its handler runs on the
    state of that moment: it clears loading; on a response that parses it
    replaces formula and explanation by its own and leaves the error as it
    was; on a response that does not parse, or on a failed call, it sets
    its own error and empties formula and explanation. *)
Theorem C9_completion_always_published
        (tr : list Action) (id : nat) (o : Outcome) :
  In id (map fst (inflight (run genAI tr boot))) ->
  let s := run genAI tr boot in
  let st' := ui (step genAI (Ui (Settle id o)) s) in
  loading st' = false /\
  match o with
  | Fulfilled text =>
      match parse text with
      | Some pf =>
          formula st' = pf_formula pf /\ explanation st' = pf_explanation pf /\
          error st' = error (ui s)
      | None => st' = parse_error_state (ui s)
      end
  | Rejected err => st' = error_state (message_of err) (ui s)
  end.
Proof.
  intros Hin s st'. subst st'. simpl.
  destruct (take_In _ _ Hin) as (k & rest & E). fold s in E. rewrite E.
  assert (Hall : all_resume s) by (apply run_all_resume; constructor).
  destruct (take_Forall _ _ _ _ _ Hall E) as [Hk _]. simpl in Hk. subst k.
  simpl. destruct o as [text|err].
  - rewrite resume_fulfilled. destruct (parse text); simpl; auto.
  - rewrite resume_rejected. simpl. auto.
Qed.
End Overlap.

Lemma C9_completion_always_published_witness :
  let s := run (Some tt) two_calls boot in
  let st' := ui (step (Some tt) (Ui (Settle 0 (Fulfilled response_sum))) s) in
  superseded 0 s /\
  loading st' = false /\ formula st' = js "=SUM(A1:A10)" /\
  explanation st' = js "1. adds values" /\ error st' = error (ui s).
Proof.
  cbv zeta.
  assert (Hin : In 0 (map fst (inflight (run (Some tt) two_calls boot))))
    by (simpl; auto).
  split; [split; [exact Hin|simpl; lia]|].
  pose proof (C9_completion_always_published (Some tt) two_calls 0
                (Fulfilled response_sum) Hin) as H.
  cbv zeta in H.
  change (parse response_sum)
    with (Some {| pf_formula := js "=SUM(A1:A10)";
                  pf_explanation := js "1. adds values" |}) in H.
  exact H.
Defined.

(** C9 as stated fails: the end of the first of two overlapping calls
    clears loading and publishes its result while the second call is in
    flight, and when the first call ends last its result replaces the
    result of the second. *)
Lemma C9_counterexample :
  ~ stale_discard (Some tt) /\
  let s := run (Some tt) two_calls boot in
  loading (ui s) = true /\
  loading (ui (step (Some tt) (Ui (Settle 0 (Fulfilled response_sum))) s)) = false /\
  formula (ui (run (Some tt)
                   [Ui (Settle 1 (Fulfilled response_other));
                    Ui (Settle 0 (Fulfilled response_sum))] s))
  = js "=SUM(A1:A10)".
Proof.
  split.
  - intros H.
    specialize (H two_calls 0 (Fulfilled response_sum)).
    assert (Hs : superseded 0 (run (Some tt) two_calls boot)).
    { split; simpl; [auto|lia]. }
    specialize (H Hs). apply (f_equal loading) in H.
    vm_compute in H. discriminate H.
  - cbv zeta. repeat split; vm_compute; reflexivity.
Qed.

Section PageInvariant.
Context {Client : Type}.
Variable genAI : option Client.

Lemma exclusive_no_error (st : State) : error st = None -> exclusive st.
Proof. intros H. split; [congruence|auto]. Qed.

Lemma exclusive_no_result (st : State) :
  formula st = [] -> explanation st = [] -> exclusive st.
Proof. intros H1 H2. split; [auto|congruence]. Qed.

Lemma on_event_page_inv (e : Event) (s : Sys) :
  page_inv s -> page_inv (on_event genAI e s).
Proof.
  intros [Hex Hfl]. destruct e as [text| |id o| |]; simpl.
  - split; [exact Hex|exact Hfl].
  - destruct (disabled (ui s)) eqn:Hd; [now split|].
    unfold disabled in Hd. apply orb_false_iff in Hd as [Hl Hb].
    destruct Hfl as [[_ Hnil]|[Hl' _]]; [|congruence].
    destruct (invoke_cases genAI s) as [->|[->|[_ ->]]].
    + split; [exact Hex|now left].
    + split; [now apply exclusive_no_result|now left].
    + split; [now apply exclusive_no_error|]. right.
      rewrite Hnil. simpl. eauto.
  - destruct Hfl as [[Hl Hnil]|(Hl & He & id' & Hin)].
    + rewrite Hnil. simpl. split; [exact Hex|now left].
    + rewrite Hin. simpl. destruct (Nat.eqb id' id).
      * simpl. destruct o as [text|err].
        -- rewrite resume_fulfilled. destruct (parse text); simpl.
           ++ split; [now apply exclusive_no_error|now left].
           ++ split; [now apply exclusive_no_result|now left].
        -- rewrite resume_rejected. simpl.
           split; [now apply exclusive_no_result|now left].
      * split; [exact Hex|]. right. rewrite Hin. eauto.
  - split; [exact Hex|exact Hfl].
  - split; [exact Hex|exact Hfl].
Qed.

Lemma ui_run_page_inv (tr : list Event) : forall s,
  page_inv s -> page_inv (ui_run genAI tr s).
Proof.
  induction tr as [|e tr IH]; intros s H; [exact H|].
  apply (IH (on_event genAI e s)). now apply on_event_page_inv.
Qed.

(** One submission from any state, run to its end with no other call in
    between, leaves the error and the result exclusive. *)
Lemma single_submission_exclusive (st : State) (o : Outcome) :
  ~ blank (description st) ->
  match generateFormula genAI st with
  | Settled st1 _ => exclusive st1
  | Suspended st1 _ k => exclusive (fst (k o st1))
  end.
Proof.
  intros H. destruct genAI as [c|].
  - rewrite generateFormula_configured by exact H. destruct o as [text|err].
    + rewrite resume_fulfilled. destruct (parse text); simpl.
      * now apply exclusive_no_error.
      * now apply exclusive_no_result.
    + rewrite resume_rejected. now apply exclusive_no_result.
  - rewrite generateFormula_unconfigured by exact H.
    now apply exclusive_no_result.
Qed.

(** C10, as amended: in every state the page can reach, where the
    button is disabled while a call is in flight and submissions do not
    overlap, the error and the result exclude each other: with an error
    set the formula and the explanation are empty, and with a formula
    shown no error is set. *)
Theorem C10_error_excludes_result (tr : list Event) :
  exclusive (ui (ui_run genAI tr boot)).
Proof.
  apply (ui_run_page_inv tr boot). split.
  - now apply exclusive_no_error.
  - now left.
Qed.
End PageInvariant.

(** C10 as stated fails: with two calls in flight at once (the handler
    called while the button is disabled), the failure of the first and
    then the success of the second leave an error and a formula together. *)
Lemma C10_counterexample :
  let s := run (Some tt)
               (two_calls ++
                [Ui (Settle 0 (Rejected (ErrorObj (js "quota"))));
                 Ui (Settle 1 (Fulfilled response_sum))]) boot in
  error (ui s) = Some (js "quota") /\
  formula (ui s) = js "=SUM(A1:A10)" /\
  ~ exclusive (ui s).
Proof.
  cbv zeta.
  assert (E : ui (run (Some tt)
                      (two_calls ++
                       [Ui (Settle 0 (Rejected (ErrorObj (js "quota"))));
                        Ui (Settle 1 (Fulfilled response_sum))]) boot)
              = mkState (js "sum") (js "=SUM(A1:A10)") (js "1. adds values")
                        false (Some (js "quota")) false)
    by (vm_compute; reflexivity).
  rewrite E. repeat split.
  intros [H _]. destruct H as [H _]; [discriminate|discriminate H].
Qed.

(* ===================================================================== *)
(** ** More about the parser *)
(* ===================================================================== *)

Lemma indexOf_unique (n h : jsstring) (i : nat) (rest : jsstring) :
  strip_prefix n (skipn i h) = Some rest ->
  (forall j, j < i -> strip_prefix n (skipn j h) = None) ->
  indexOf n h = Some i.
Proof.
  intros Hi Hmin. destruct (indexOf_found n h i rest Hi) as (i' & E & Hle).
  rewrite E. f_equal. destruct (Nat.eq_dec i' i) as [|Hne]; [assumption|].
  destruct (indexOf_Some _ _ _ E) as ((r & Hr) & _ & _).
  assert (Hlt : i' < i) by lia. specialize (Hmin i' Hlt).
  rewrite Hr, strip_prefix_app in Hmin. discriminate Hmin.
Qed.

(** Both headers at their first occurrence, in order. *)
Lemma segments_of_layout (pre body rest : jsstring) :
  let raw := pre ++ FORMULA_hdr ++ body ++ EXPLANATION_hdr ++ rest in
  indexOf FORMULA_hdr raw = Some (List.length pre) ->
  indexOf EXPLANATION_hdr raw
  = Some (List.length pre + List.length FORMULA_hdr + List.length body) ->
  formula_segment raw = Some body /\ explanation_segment raw = Some rest.
Proof.
  intros raw HF HE.
  assert (Hskip : skipn (List.length pre + List.length FORMULA_hdr) raw
                  = body ++ EXPLANATION_hdr ++ rest).
  { unfold raw. rewrite Nat.add_comm, <- skipn_skipn.
    now rewrite !skipn_app_exact. }
  split.
  - unfold formula_segment. rewrite HF, Hskip.
    rewrite (indexOf_unique EXPLANATION_hdr _ (List.length body) rest).
    + now rewrite firstn_app, firstn_all, Nat.sub_diag, app_nil_r.
    + now rewrite skipn_app_exact, strip_prefix_app.
    + intros j Hj. rewrite <- Hskip, skipn_skipn.
      destruct (indexOf_Some _ _ _ HE) as (_ & _ & Hm). apply Hm. lia.
  - unfold explanation_segment. rewrite HE. f_equal.
    replace (List.length pre + List.length FORMULA_hdr + List.length body
             + List.length EXPLANATION_hdr)
      with (List.length EXPLANATION_hdr
            + (List.length body + (List.length pre + List.length FORMULA_hdr)))
      by lia.
    rewrite <- skipn_skipn, <- skipn_skipn, Hskip.
    now rewrite !skipn_app_exact.
Qed.

(** X1: a response laid out as the prompt asks, with the first
    [FORMULA:] header followed by the first [EXPLANATION:] header, parses
    to the text between the headers, trimmed and without its outer quotes,
    and to the text after the second header, trimmed. *)
Theorem parse_layout (pre body rest : jsstring) :
  indexOf FORMULA_hdr (pre ++ FORMULA_hdr ++ body ++ EXPLANATION_hdr ++ rest)
  = Some (List.length pre) ->
  indexOf EXPLANATION_hdr (pre ++ FORMULA_hdr ++ body ++ EXPLANATION_hdr ++ rest)
  = Some (List.length pre + List.length FORMULA_hdr + List.length body) ->
  parse (pre ++ FORMULA_hdr ++ body ++ EXPLANATION_hdr ++ rest)
  = Some {| pf_formula := cleanFormula (trim body);
            pf_explanation := trim rest |}.
Proof.
  intros HF HE. destruct (segments_of_layout pre body rest HF HE) as [Hf He].
  now rewrite parse_segments, Hf, He.
Qed.

Lemma parse_layout_witness :
  parse (js "Sure! " ++ FORMULA_hdr ++ js " =A1+B1 " ++ EXPLANATION_hdr
            ++ js " 1. adds ")
  = Some {| pf_formula := js "=A1+B1"; pf_explanation := js "1. adds" |}.
Proof.
  apply (parse_layout (js "Sure! ") (js " =A1+B1 ") (js " 1. adds "));
    vm_compute; reflexivity.
Defined.

(** A part of a string with no complete occurrence has none either. *)
Lemma no_occurrence_inside (n a x b tail : jsstring) :
  n <> [] ->
  (forall j, j < List.length (a ++ x ++ b) ->
             strip_prefix n (skipn j ((a ++ x ++ b) ++ tail)) = None) ->
  indexOf n x = None.
Proof.
  intros Hn Hmin. destruct (indexOf n x) as [i|] eqn:E; [exfalso|reflexivity].
  destruct (indexOf_Some _ _ _ E) as ((r & Hr) & Hle & _).
  assert (Hlen : i + List.length n <= List.length x).
  { apply (f_equal (@List.length _)) in Hr.
    rewrite length_skipn, length_app in Hr. lia. }
  assert (Hpos : 0 < List.length n) by (destruct n; [congruence|simpl; lia]).
  specialize (Hmin (List.length a + i)).
  rewrite <- !app_assoc in Hmin.
  rewrite Nat.add_comm, <- skipn_skipn, skipn_app_exact in Hmin.
  rewrite skipn_app in Hmin.
  replace (i - List.length x) with 0 in Hmin by lia.
  rewrite Hr in Hmin. simpl skipn in Hmin.
  rewrite <- app_assoc, strip_prefix_app in Hmin.
  discriminate Hmin. rewrite !length_app. lia.
Qed.

(** The formula is a part of its segment. *)
Lemma formula_inside_segment (seg : jsstring) :
  exists a b, seg = a ++ cleanFormula (trim seg) ++ b.
Proof.
  destruct (trim_split seg) as (ws1 & ws2 & E & _).
  destruct (cleanFormula_cases (trim seg)) as [[Hw _]|[_ ->]].
  - destruct Hw as (q1 & mid & q2 & Et & H1 & H2 & Hne & Hmid).
    rewrite Et in *. rewrite cleanFormula_wrapped by assumption.
    exists (ws1 ++ [q1]), ([q2] ++ ws2). rewrite E at 1.
    cbn [app]. rewrite <- !app_assoc. reflexivity.
  - now exists ws1, ws2.
Qed.

(** X2: the formula of a parsed response never holds the text
    [EXPLANATION:]. *)
Theorem formula_without_header (raw : jsstring) (pf : ParsedFormula) :
  parse raw = Some pf -> indexOf EXPLANATION_hdr (pf_formula pf) = None.
Proof.
  intros H. apply parse_Some_inv in H as (seg & after & Hs & _ & -> & _).
  unfold formula_segment in Hs.
  destruct (indexOf FORMULA_hdr raw) as [i|]; [|discriminate].
  set (rem := skipn (i + List.length FORMULA_hdr) raw) in *.
  destruct (indexOf EXPLANATION_hdr rem) as [j|] eqn:Ej; [|discriminate].
  injection Hs as <-.
  destruct (indexOf_Some _ _ _ Ej) as (_ & Hle & Hmin).
  destruct (formula_inside_segment (firstn j rem)) as (a & b & E).
  apply (no_occurrence_inside EXPLANATION_hdr a _ b (skipn j rem));
    [discriminate|].
  rewrite <- E, firstn_skipn. intros j' Hj'. apply Hmin.
  rewrite length_firstn in Hj'. lia.
Qed.

Lemma formula_without_header_witness :
  indexOf EXPLANATION_hdr (js "=" ++ [dquote]) = None.
Proof.
  apply (formula_without_header response_embedded
           {| pf_formula := js "=" ++ [dquote];
              pf_explanation :=
                [dquote] ++ js " & A1" ++ [nl; nl] ++ js "EXPLANATION:"
                ++ [nl] ++ js "1. joins" |}).
  vm_compute. reflexivity.
Defined.

(** X3: the explanation is what follows the first [EXPLANATION:] header
    of the whole response, trimmed, also when that header stands in front
    of the [FORMULA:] header; the formula header and the formula are then
    part of the explanation. *)
Theorem explanation_from_first_header (a b : jsstring) (pf : ParsedFormula) :
  indexOf EXPLANATION_hdr (a ++ EXPLANATION_hdr ++ b) = Some (List.length a) ->
  parse (a ++ EXPLANATION_hdr ++ b) = Some pf ->
  pf_explanation pf = trim b.
Proof.
  intros Hi H. apply parse_Some_inv in H as (seg & after & _ & Ha & _ & ->).
  unfold explanation_segment in Ha. rewrite Hi in Ha. injection Ha as <-.
  rewrite Nat.add_comm, <- skipn_skipn. now rewrite !skipn_app_exact.
Qed.

Lemma explanation_from_first_header_witness :
  parse response_explanation_first
  = Some {| pf_formula := js "=A1";
            pf_explanation := js "see FORMULA: =A1 EXPLANATION: adds" |}
  /\ js "see FORMULA: =A1 EXPLANATION: adds"
     = trim (js " see FORMULA: =A1 EXPLANATION: adds").
Proof.
  assert (Hp : parse response_explanation_first
               = Some {| pf_formula := js "=A1";
                         pf_explanation :=
                           js "see FORMULA: =A1 EXPLANATION: adds" |})
    by (vm_compute; reflexivity).
  split; [exact Hp|].
  assert (Hi : indexOf EXPLANATION_hdr
                 ([] ++ EXPLANATION_hdr
                     ++ js " see FORMULA: =A1 EXPLANATION: adds")
               = Some (List.length (@nil char)))
    by (vm_compute; reflexivity).
  exact (explanation_from_first_header []
           (js " see FORMULA: =A1 EXPLANATION: adds")
           {| pf_formula := js "=A1";
              pf_explanation := js "see FORMULA: =A1 EXPLANATION: adds" |}
           Hi Hp).
Defined.

(** X4: the explanation of a parsed response has no white space at
    either end, and neither has the formula unless its outer quotes were
    removed: what stood inside the quotes is not trimmed again. *)
Theorem parsed_fields_trimmed (raw : jsstring) (pf : ParsedFormula) :
  parse raw = Some pf ->
  trim (pf_explanation pf) = pf_explanation pf /\
  (trim (pf_formula pf) = pf_formula pf \/
   exists seg, formula_segment raw = Some seg /\ wrapped (trim seg)).
Proof.
  intros H. apply parse_Some_inv in H as (seg & after & Hs & _ & -> & ->).
  split; [apply trim_idem|].
  destruct (cleanFormula_cases (trim seg)) as [[Hw _]|[_ ->]].
  - right. now exists seg.
  - left. apply trim_idem.
Qed.

Lemma parsed_fields_trimmed_witness :
  trim (js "x") = js "x" /\
  (trim (js " =A1 ") = js " =A1 " \/
   exists seg, formula_segment response_padded = Some seg /\ wrapped (trim seg)).
Proof.
  apply (parsed_fields_trimmed response_padded
           {| pf_formula := js " =A1 "; pf_explanation := js "x" |}).
  vm_compute. reflexivity.
Defined.

Lemma quote_not_terminator (q : char) :
  isQuote q = true -> isLineTerminator q = false.
Proof.
  unfold isQuote. intros H. apply orb_true_iff in H as [H|H];
    apply N.eqb_eq in H; subst q; reflexivity.
Qed.

(** X5: a string of fewer than three characters, or one that holds a
    line terminator anywhere, keeps its quotes. *)
Theorem cleanFormula_keeps (s : jsstring) :
  List.length s < 3 \/ existsb isLineTerminator s = true ->
  cleanFormula s = s.
Proof.
  intros H. apply cleanFormula_other.
  intros (q1 & mid & q2 & -> & H1 & H2 & Hne & Hmid).
  destruct H as [H|H].
  - simpl in H. rewrite length_app in H. simpl in H.
    destruct mid; [congruence|simpl in H; lia].
  - simpl in H. rewrite existsb_app in H. simpl in H.
    rewrite (quote_not_terminator _ H1), (quote_not_terminator _ H2) in H.
    simpl in H. rewrite orb_false_r in H.
    apply existsb_exists in H as (c & Hin & Hc).
    unfold no_terminator in Hmid. rewrite forallb_forall in Hmid.
    specialize (Hmid c Hin). now rewrite Hc in Hmid.
Qed.

Lemma cleanFormula_keeps_witness :
  cleanFormula (dquote :: js "=A1" ++ [nl] ++ js "+B1" ++ [dquote])
  = dquote :: js "=A1" ++ [nl] ++ js "+B1" ++ [dquote]
  /\ cleanFormula [dquote; dquote] = [dquote; dquote].
Proof.
  split.
  - apply cleanFormula_keeps. right. vm_compute. reflexivity.
  - apply cleanFormula_keeps. left. simpl. lia.
Defined.

(* ===================================================================== *)
(** ** More about the handler *)
(* ===================================================================== *)

Lemma resume_normal (o : Outcome) (st : State) : snd (resume o st) = Normal tt.
Proof.
  destruct o as [text|err]; [|reflexivity].
  rewrite resume_fulfilled. now destruct (parse text).
Qed.

Lemma resume_frame (o : Outcome) (st : State) :
  description (fst (resume o st)) = description st /\
  copied (fst (resume o st)) = copied st /\
  loading (fst (resume o st)) = false.
Proof.
  destruct o as [text|err]; [|now rewrite resume_rejected].
  rewrite resume_fulfilled. now destruct (parse text).
Qed.

Section HandlerFacts.
Context {Client : Type}.
Variable genAI : option Client.

Lemma generateFormula_cases (st : State) :
  (blank (description st) /\
   generateFormula genAI st = Settled st (Normal tt)) \/
  (~ blank (description st) /\ genAI = None /\
   generateFormula genAI st = Settled (error_state config_msg st) (Normal tt)) \/
  (~ blank (description st) /\ genAI <> None /\
   generateFormula genAI st
   = Suspended (loading_of st) (request_of st) resume).
Proof.
  destruct (trim (description st)) as [|c t] eqn:E.
  - left. split; [exact E|]. now apply generateFormula_blank.
  - assert (H : ~ blank (description st)) by (unfold blank; congruence).
    right. destruct genAI as [c0|].
    + right. repeat split; [exact H|discriminate|].
      now apply generateFormula_configured.
    + left. repeat split; [exact H|]. now apply generateFormula_unconfigured.
Qed.

(** X6: no exception leaves the handler. Whether it returns at once,
    fails on the missing client, or runs on after the call, in every case
    (a rejected call, a response that does not parse, a capture that is
    missing) the promise it returns is fulfilled. *)
Theorem handler_never_rejects (st : State) :
  match generateFormula genAI st with
  | Settled _ c => c = Normal tt
  | Suspended _ _ k => forall o st2, snd (k o st2) = Normal tt
  end.
Proof.
  destruct (generateFormula_cases st) as [[_ ->]|[(_ & _ & ->)|(_ & _ & ->)]];
    trivial.
  intros o st2. apply resume_normal.
Qed.

(** X7: the handler never changes the description the user typed nor
    the copied flag, before the call or after it, on any path. *)
Theorem handler_frame (st : State) :
  match generateFormula genAI st with
  | Settled st1 _ =>
      description st1 = description st /\ copied st1 = copied st
  | Suspended st1 _ k =>
      description st1 = description st /\ copied st1 = copied st /\
      forall o st2, description (fst (k o st2)) = description st2 /\
                    copied (fst (k o st2)) = copied st2
  end.
Proof.
  destruct (generateFormula_cases st) as [[_ ->]|[(_ & _ & ->)|(_ & _ & ->)]];
    simpl; auto.
  repeat split; trivial; apply resume_frame.
Qed.

(** X8: the guard of the button (line 91) covers the guard of the
    handler (line 17). A click on an enabled button never returns early:
    without a client it ends in the configuration error, with a client it
    sets loading and issues one request. *)
Theorem enabled_click_acts (s : Sys) :
  disabled (ui s) = false ->
  match genAI with
  | None =>
      on_event genAI Click s
      = mkSys (error_state config_msg (ui s)) (inflight s) (issued s)
  | Some _ =>
      on_event genAI Click s
      = mkSys (loading_of (ui s))
              (inflight s ++ [(List.length (issued s), resume)])
              (issued s ++ [request_of (ui s)])
  end.
Proof.
  intros Hd. simpl. rewrite Hd. unfold disabled in Hd.
  apply orb_false_iff in Hd as [_ Hb]. unfold invoke.
  assert (H : ~ blank (description (ui s))).
  { unfold blank. destruct (trim (description (ui s))); [discriminate|congruence]. }
  destruct genAI as [c|].
  - now rewrite generateFormula_configured.
  - now rewrite generateFormula_unconfigured.
Qed.

Lemma step_requests (a : Action) (s : Sys) :
  Forall well_formed_request (issued s) ->
  Forall well_formed_request (issued (step genAI a s)).
Proof.
  intros H.
  assert (Hi : Forall well_formed_request (issued (invoke genAI s))).
  { destruct (invoke_cases genAI s) as [->|[->|[Hb ->]]]; simpl; trivial.
    apply Forall_app. split; [exact H|]. repeat constructor.
    now exists (description (ui s)). }
  destruct a as [[text| |id o| |]|]; simpl; trivial.
  - destruct (disabled (ui s)); trivial.
  - destruct (take id (inflight s)) as [[k rest]|]; trivial.
Qed.

Lemma step_unconfigured (a : Action) (s : Sys) :
  genAI = None -> issued (step genAI a s) = issued s.
Proof.
  intros Hn.
  assert (Hi : issued (invoke genAI s) = issued s).
  { unfold invoke.
    destruct (generateFormula_cases (ui s))
      as [[_ ->]|[(_ & _ & ->)|(_ & Hc & _)]]; trivial. congruence. }
  destruct a as [[text| |id o| |]|]; simpl; trivial.
  - destruct (disabled (ui s)); trivial.
  - destruct (take id (inflight s)) as [[k rest]|]; trivial.
Qed.

(** X9: whatever happens to the component, direct calls included,
    every request it has issued names the model of line 26 and carries the
    prompt of a description that was not blank; and without a client it
    issues none. *)
Theorem requests_well_formed (tr : list Action) :
  Forall well_formed_request (issued (run genAI tr boot)) /\
  (genAI = None -> issued (run genAI tr boot) = []).
Proof.
  assert (H : forall s,
             Forall well_formed_request (issued s) ->
             Forall well_formed_request (issued (run genAI tr s)) /\
             (genAI = None -> issued (run genAI tr s) = issued s)).
  { induction tr as [|a tr IH]; intros s Hs; simpl; [now split|].
    destruct (IH (step genAI a s) (step_requests a s Hs)) as [H1 H2].
    split; [exact H1|]. intros Hn. rewrite (H2 Hn).
    now apply step_unconfigured. }
  apply (H boot). constructor.
Qed.

(** X10: through the page at most one call is in flight, loading is set
    exactly while one is, and no error is set while loading. *)
Theorem page_single_flight (tr : list Event) :
  let s := ui_run genAI tr boot in
  List.length (inflight s) <= 1 /\
  (loading (ui s) = true <-> inflight s <> []) /\
  (loading (ui s) = true -> error (ui s) = None).
Proof.
  cbv zeta.
  assert (H : page_inv (ui_run genAI tr boot)).
  { apply ui_run_page_inv. split; [now apply exclusive_no_error|now left]. }
  destruct H as [_ [[Hl Hn]|(Hl & He & id & Hin)]].
  - rewrite Hl, Hn. simpl. repeat split; try lia; congruence.
  - rewrite Hl, Hin. simpl. repeat split; try lia; try congruence.
Qed.
End HandlerFacts.

Lemma enabled_click_acts_witness :
  on_event (Some tt) Click (mkSys stale_state [] [])
  = mkSys (loading_of stale_state) [(0, resume)] [request_of stale_state].
Proof.
  apply (enabled_click_acts (Some tt) (mkSys stale_state [] [])).
  vm_compute. reflexivity.
Defined.

Lemma requests_well_formed_witness :
  issued (run (@None unit) two_calls boot) = [] /\
  Forall well_formed_request (issued (run (Some tt) two_calls boot)).
Proof.
  split.
  - apply (proj2 (requests_well_formed (@None unit) two_calls)). reflexivity.
  - apply (proj1 (requests_well_formed (Some tt) two_calls)).
Defined.

Lemma page_single_flight_witness :
  let s := ui_run (Some tt) [Edit (js "sum"); Click; Click] boot in
  List.length (inflight s) <= 1 /\
  (loading (ui s) = true <-> inflight s <> []) /\
  (loading (ui s) = true -> error (ui s) = None).
Proof.
  apply (page_single_flight (Some tt) [Edit (js "sum"); Click; Click]).
Defined.

(** X11: a valid submission whose call returns a response that parses
    ends with the parsed formula and explanation in the state, loading
    cleared and no error, whatever the state held before. *)
Theorem successful_submission {Client : Type} (c : Client) (st : State)
        (raw : jsstring) (pf : ParsedFormula) :
  ~ blank (description st) ->
  parse raw = Some pf ->
  exists st1 req k,
    generateFormula (Some c) st = Suspended st1 req k /\
    k (Fulfilled raw) st1
    = (mkState (description st) (pf_formula pf) (pf_explanation pf) false None
               (copied st), Normal tt).
Proof.
  intros Hb Hp. exists (loading_of st), (request_of st), resume.
  split; [now apply generateFormula_configured|].
  now rewrite resume_fulfilled, Hp.
Qed.

Lemma successful_submission_witness :
  exists st1 req k,
    generateFormula (Some tt) stale_state = Suspended st1 req k /\
    k (Fulfilled response_sum) st1
    = (mkState (js "sum") (js "=SUM(A1:A10)") (js "1. adds values") false None
               false, Normal tt).
Proof.
  apply (successful_submission tt stale_state response_sum
           {| pf_formula := js "=SUM(A1:A10)";
              pf_explanation := js "1. adds values" |}).
  - unfold blank. vm_compute. discriminate.
  - vm_compute. reflexivity.
Defined.

(** X12: the success branch does not clear the error; only the start of
    the handler does. When a call that failed is followed by the success of
    another call that was already in flight, the state holds the error of
    the first and the formula of the second at once. *)
Theorem late_success_keeps_error (st : State) (err : Thrown)
        (raw : jsstring) (pf : ParsedFormula) :
  parse raw = Some pf ->
  pf_formula pf <> [] ->
  let st' := fst (resume (Fulfilled raw) (fst (resume (Rejected err) st))) in
  error st' = Some (message_of err) /\
  formula st' = pf_formula pf /\
  explanation st' = pf_explanation pf /\
  ~ exclusive st'.
Proof.
  intros Hp Hne st'. subst st'.
  rewrite resume_rejected, resume_fulfilled, Hp. simpl.
  repeat split. intros [H _]. simpl in H.
  destruct H as [H _]; [discriminate|]. now apply Hne.
Qed.

Lemma late_success_keeps_error_witness :
  let st' := fst (resume (Fulfilled response_sum)
                         (fst (resume (Rejected NotAnError) loading_state))) in
  error st' = Some (message_of NotAnError) /\
  formula st' = js "=SUM(A1:A10)" /\
  explanation st' = js "1. adds values" /\
  ~ exclusive st'.
Proof.
  apply (late_success_keeps_error loading_state NotAnError response_sum
           {| pf_formula := js "=SUM(A1:A10)";
              pf_explanation := js "1. adds values" |}).
  - vm_compute. reflexivity.
  - vm_compute. discriminate.
Defined.

(* ===================================================================== *)
(** ** What the page shows *)
(* ===================================================================== *)

Lemma split_on_cons (sep : char) (s : jsstring) :
  exists cur rest, split_on sep s = cur :: rest.
Proof.
  induction s as [|c s (cur & rest & IH)]; simpl; [now exists [], []|].
  destruct (N.eqb c sep); [eauto|]. rewrite IH. eauto.
Qed.

Lemma join_nil_cons (sep : char) (cur : jsstring) (rest : list jsstring) :
  join sep ([] :: cur :: rest) = sep :: join sep (cur :: rest).
Proof. reflexivity. Qed.

Lemma join_cons (sep c : char) (cur : jsstring) (rest : list jsstring) :
  join sep ((c :: cur) :: rest) = c :: join sep (cur :: rest).
Proof. destruct rest; reflexivity. Qed.

(** X13: the paragraphs of line 149 are the lines of the explanation:
    joined by newlines they give the explanation back, none of them holds
    a newline, and there is one more of them than there are newlines. *)
Theorem paragraphs_are_lines (s : jsstring) :
  join nl (split_on nl s) = s /\
  Forall (fun p => ~ In nl p) (split_on nl s) /\
  List.length (split_on nl s) = S (count_occ N.eq_dec s nl).
Proof.
  induction s as [|c s (Hj & Hf & Hl)].
  - simpl. repeat split. repeat constructor. tauto.
  - destruct (split_on_cons nl s) as (cur & rest & E).
    cbn [split_on count_occ]. rewrite E in *.
    destruct (N.eqb_spec c nl) as [->|Hne].
    + destruct (N.eq_dec nl nl) as [_|]; [|congruence].
      repeat split.
      * rewrite join_nil_cons. now rewrite Hj.
      * constructor; [tauto|exact Hf].
      * cbn [List.length] in *. now rewrite Hl.
    + destruct (N.eq_dec c nl) as [|_]; [congruence|].
      repeat split.
      * now rewrite join_cons, Hj.
      * inversion Hf as [|? ? Hc Hr]; subst. constructor; [|exact Hr].
        intros [H|H]; [congruence|now apply Hc].
      * exact Hl.
Qed.

Lemma split_on_last (sep z : char) (t : jsstring) :
  N.eqb z sep = false ->
  exists p, last (split_on sep (t ++ [z])) [] = p ++ [z].
Proof.
  intros Hz. induction t as [|c t (p & IH)]; simpl.
  - rewrite Hz. now exists [].
  - destruct (split_on_cons sep (t ++ [z])) as (cur & rest & E).
    rewrite E in *. destruct (N.eqb c sep).
    + exists p. exact IH.
    + destruct rest as [|r rest].
      * simpl in IH. subst cur. now exists (c :: p).
      * exists p. exact IH.
Qed.

Lemma nonspace_not_nl (c : char) : isSpace c = false -> N.eqb c nl = false.
Proof.
  intros H. destruct (N.eqb_spec c nl) as [->|]; [discriminate H|reflexivity].
Qed.

(** X14: a parsed explanation that is not empty never starts or ends
    with a blank paragraph. *)
Theorem explanation_paragraphs_solid (raw : jsstring) (pf : ParsedFormula) :
  parse raw = Some pf ->
  pf_explanation pf <> [] ->
  hd [] (split_on nl (pf_explanation pf)) <> [] /\
  last (split_on nl (pf_explanation pf)) [] <> [].
Proof.
  intros H Hne. apply parse_Some_inv in H as (seg & after & _ & _ & _ & E).
  rewrite E in *. clear E. unfold trim in *. split.
  - destruct (trimStart after) as [|c t] eqn:Et; [now elim Hne|].
    pose proof (trimStart_head _ _ _ Et) as Hc.
    destruct (trimEnd_head c t Hc) as (t' & ->). simpl.
    rewrite (nonspace_not_nl _ Hc).
    destruct (split_on_cons nl t') as (cur & rest & ->). discriminate.
  - destruct (trimEnd_last (trimStart after)) as [Hn|(s0 & z & -> & Hz)];
      [congruence|].
    destruct (split_on_last nl z s0 (nonspace_not_nl _ Hz)) as (p & ->).
    now destruct p.
Qed.

Lemma explanation_paragraphs_solid_witness :
  hd [] (split_on nl (js "1. adds values")) <> [] /\
  last (split_on nl (js "1. adds values")) [] <> [].
Proof.
  apply (explanation_paragraphs_solid response_sum
           {| pf_formula := js "=SUM(A1:A10)";
              pf_explanation := js "1. adds values" |}).
  - vm_compute. reflexivity.
  - vm_compute. discriminate.
Defined.

(** X15: a valid submission whose response parses with an empty
    formula shows nothing at all: the handler clears the error before the
    call, stores the explanation, and the result card is tied to the
    formula, so neither banner nor card is rendered, whatever the state
    held before. *)
Theorem empty_formula_shows_nothing {Client : Type} (c : Client) (st : State)
        (raw : jsstring) (pf : ParsedFormula) :
  ~ blank (description st) ->
  parse raw = Some pf ->
  pf_formula pf = [] ->
  exists st1 req k,
    generateFormula (Some c) st = Suspended st1 req k /\
    let st' := fst (k (Fulfilled raw) st1) in
    explanation st' = pf_explanation pf /\
    error_banner (render st') = None /\
    result_card (render st') = None.
Proof.
  intros Hb Hp Hf. exists (loading_of st), (request_of st), resume.
  split; [now apply generateFormula_configured|].
  cbv zeta. rewrite resume_fulfilled, Hp. unfold render. simpl.
  rewrite Hf. auto.
Qed.

Lemma empty_formula_shows_nothing_witness :
  exists st1 req k,
    generateFormula (Some tt) stale_state = Suspended st1 req k /\
    let st' := fst (k (Fulfilled response_empty_formula) st1) in
    explanation st' = js "x" /\
    error_banner (render st') = None /\
    result_card (render st') = None.
Proof.
  apply (empty_formula_shows_nothing tt stale_state response_empty_formula
           {| pf_formula := []; pf_explanation := js "x" |}).
  - unfold blank. vm_compute. discriminate.
  - vm_compute. reflexivity.
  - reflexivity.
Defined.

(** X16: after a failed call the result card is gone, and the error
    banner shows the message exactly when the message is not empty: an
    Error with an empty message leaves the page without banner and
    without card. *)
Theorem failure_banner (err : Thrown) (st : State) :
  let st' := fst (resume (Rejected err) st) in
  result_card (render st') = None /\
  (message_of err <> [] -> error_banner (render st') = Some (message_of err)) /\
  (message_of err = [] -> error_banner (render st') = None).
Proof.
  cbv zeta. rewrite resume_rejected. unfold render. simpl.
  destruct (message_of err); repeat split; congruence.
Qed.

Lemma failure_banner_witness :
  let st' := fst (resume (Rejected (ErrorObj [])) stale_state) in
  result_card (render st') = None /\ error_banner (render st') = None.
Proof.
  cbv zeta.
  destruct (failure_banner (ErrorObj []) stale_state) as (Hc & _ & Hb).
  split; [exact Hc|]. apply Hb. reflexivity.
Defined.

(** X17: in every state the page can reach, the error banner and the
    result card are never shown together. *)
Theorem page_never_shows_both {Client : Type} (genAI : option Client)
        (tr : list Event) :
  let s := ui_run genAI tr boot in
  error_banner (render (ui s)) = None \/ result_card (render (ui s)) = None.
Proof.
  cbv zeta.
  assert (H : page_inv (ui_run genAI tr boot)).
  { apply ui_run_page_inv. split; [now apply exclusive_no_error|now left]. }
  destruct H as [[Hex _] _]. unfold render. simpl.
  destruct (error (ui (ui_run genAI tr boot))) as [msg|] eqn:E; [|now left].
  right. destruct Hex as [-> _]; [discriminate|reflexivity].
Qed.

(** X18: after a successful submission with a formula that is not
    empty, the result card shows the parsed formula, the copy button hands
    that same text to the clipboard, and the paragraphs joined by newlines
    are the parsed explanation. *)
Theorem shown_and_copied_formula (raw : jsstring) (pf : ParsedFormula)
        (st : State) :
  parse raw = Some pf ->
  pf_formula pf <> [] ->
  let st' := fst (resume (Fulfilled raw) st) in
  written_text (copyToClipboard st') = pf_formula pf /\
  exists card,
    result_card (render st') = Some card /\
    shown_formula card = pf_formula pf /\
    join nl (paragraphs card) = pf_explanation pf.
Proof.
  intros Hp Hne st'. subst st'. rewrite resume_fulfilled, Hp.
  unfold render. simpl. split; [reflexivity|].
  destruct (pf_formula pf) as [|c f] eqn:E; [congruence|].
  eexists. split; [reflexivity|]. simpl.
  split; [reflexivity|apply paragraphs_are_lines].
Qed.

Lemma shown_and_copied_formula_witness :
  let st' := fst (resume (Fulfilled response_sum) loading_state) in
  written_text (copyToClipboard st') = js "=SUM(A1:A10)" /\
  exists card,
    result_card (render st') = Some card /\
    shown_formula card = js "=SUM(A1:A10)" /\
    join nl (paragraphs card) = js "1. adds values".
Proof.
  apply (shown_and_copied_formula response_sum
           {| pf_formula := js "=SUM(A1:A10)";
              pf_explanation := js "1. adds values" |} loading_state).
  - vm_compute. reflexivity.
  - vm_compute. discriminate.
Defined.

(** X19: a copy that succeeds changes the copied flag only and arms a
    timer of two seconds whose callback clears the flag again, so that a
    state with the flag down is back as it was; a copy that fails changes
    nothing and arms no timer. *)
Theorem copy_then_timer (st : State) (o : WriteOutcome) :
  copied st = false ->
  match o with
  | Written =>
      exists st1 t,
        copy_rest (copyToClipboard st) o st = (st1, Normal (Some t)) /\
        copied st1 = true /\ delay_ms t = 2000 /\
        fst (callback t st1) = st
  | WriteFailed err =>
      copy_rest (copyToClipboard st) o st = (st, Throw err)
  end.
Proof.
  intros Hc. destruct o as [|err]; [|reflexivity].
  eexists _, _. split; [reflexivity|]. simpl.
  repeat split. destruct st; simpl in *. now subst.
Qed.

Lemma copy_then_timer_witness :
  exists st1 t,
    copy_rest (copyToClipboard stale_state) Written stale_state
    = (st1, Normal (Some t)) /\
    copied st1 = true /\ delay_ms t = 2000 /\
    fst (callback t st1) = stale_state.
Proof. apply (copy_then_timer stale_state Written). reflexivity. Defined.
